(** * node-udp: a shallow embedding of [src/server.ts]

    The UDP joystick server keeps a registry of peers ([Map<string, number>]),
    classifies every datagram as joystick JSON or plain text, answers with an
    acknowledgment, and sweeps silent peers on a timer.

    Conventions of the embedding:
    - a JavaScript string is the list of its UTF-16 code units ([jsstring]);
    - a JavaScript number is an IEEE-754 binary64 value ([number]), finite
      values being kept as mantissa and binary exponent in canonical form;
    - integer-valued quantities of the program (epoch milliseconds, ports) are
      [Z]: all of them stay far below 2^53, where binary64 arithmetic on
      integers is exact;
    - statements run in a state-and-exception monad over a [World] that holds
      the server's fields, the number of clock readings taken so far and the
      trace of console and socket effects. *)

From Stdlib Require Import String Ascii DecimalString.
From Stdlib Require Import ZArith List Bool Lia.
Import ListNotations.
Local Open Scope Z_scope.

(* ================================================================== *)
(** * JavaScript strings *)
(* ================================================================== *)

Module JsString.

(** A string value: the sequence of its UTF-16 code units. *)
Definition jsstring := list Z.

(** An ASCII literal of the source, as code units. *)
Definition u (s : string) : jsstring :=
  map (fun a => Z.of_N (N_of_ascii a)) (list_ascii_of_string s).

(** The same, with every apostrophe standing for a double quote (code unit
    34): JSON texts are written [q "{'left':...}"] in this file. *)
Definition q (s : string) : jsstring :=
  map (fun c => if c =? 39 then 34 else c) (u s).

Definition dquote : Z := 34.

Fixpoint eqb (a b : jsstring) : bool :=
  match a, b with
  | [], [] => true
  | x :: a', y :: b' => (x =? y) && eqb a' b'
  | _, _ => false
  end.

(** [String.prototype.repeat] *)
Fixpoint repeat (s : jsstring) (n : nat) : jsstring :=
  match n with
  | O => []
  | S n' => s ++ repeat s n'
  end.

(** [String.prototype.padStart(targetLength)] with the default filler, a
    space: shorter strings are filled on the left, others are returned as
    they are. *)
Definition padStart (s : jsstring) (targetLength : nat) : jsstring :=
  repeat [32] (targetLength - length s) ++ s.

(** [Number::toString] on an integer below 10^21 in magnitude: its decimal
    digits, with a minus sign when negative. *)
Definition of_Z (n : Z) : jsstring :=
  u (NilZero.string_of_int (Z.to_int n)).

(** Is the code unit a decimal digit? *)
Definition is_digit (c : Z) : bool := (48 <=? c) && (c <=? 57).

(** Longest prefix of decimal digits, and what follows it. *)
Fixpoint span_digits (s : jsstring) : jsstring * jsstring :=
  match s with
  | c :: r =>
      if is_digit c
      then let (ds, rest) := span_digits r in (c :: ds, rest)
      else ([], s)
  | [] => ([], [])
  end.

(** Value of a digit sequence read in base ten. *)
Definition digits_value (ds : jsstring) : Z :=
  fold_left (fun acc c => 10 * acc + (c - 48)) ds 0.

(** Does [s] start with [p]?  If so, what follows. *)
Fixpoint strip_prefix (p s : jsstring) : option jsstring :=
  match p, s with
  | [], _ => Some s
  | x :: p', y :: s' => if x =? y then strip_prefix p' s' else None
  | _ :: _, [] => None
  end.

(** The text after the character [c], when [s] starts with it. *)
Definition take_char (c : Z) (s : jsstring) : option jsstring :=
  match s with
  | x :: r => if x =? c then Some r else None
  | [] => None
  end.

(** An optional sign: is it a minus, and the text after it.  A plus sign is
    taken only where the grammar allows one. *)
Definition take_sign (allow_plus : bool) (s : jsstring) : bool * jsstring :=
  match s with
  | c :: r =>
      if c =? 45 then (true, r)
      else if allow_plus && (c =? 43) then (false, r)
      else (false, s)
  | [] => (false, [])
  end.

End JsString.
Import JsString.

(* ================================================================== *)
(** * JavaScript numbers *)
(* ================================================================== *)

Module Number.

(** A binary64 value.  [Finite m e] is [m * 2^e] in canonical form: either
    [2^52 <= |m| < 2^53] and [-1074 <= e <= 971], or [|m| < 2^52] and
    [e = -1074] (subnormals and zero).  The sign of zero is not kept: the
    program only compares numbers with [>]. *)
Inductive number :=
| NaN
| Infinity (negative : bool)
| Finite (m e : Z).

(** [floor (log2 (n / d))] for positive [n] and [d]. *)
Definition binade (n d : Z) : Z :=
  let l := Z.log2 n - Z.log2 d in
  let fits := if 0 <=? l then d * 2 ^ l <=? n else d <=? n * 2 ^ (- l) in
  if fits then l else l - 1.

(** A mantissa that rounding carried to [2^53] moves to the next binade;
    beyond the largest exponent the value is infinite. *)
Definition normalize (m e : Z) : number :=
  let '(m', e') := if m =? 2 ^ 53 then (2 ^ 52, e + 1) else (m, e) in
  if 971 <? e' then Infinity false else Finite m' e'.

(** The binary64 value nearest to [n / d] (ties to even), for positive [n]
    and [d]. *)
Definition round_ratio (n d : Z) : number :=
  let e := Z.max (binade n d - 52) (-1074) in
  let num := if 0 <=? e then n else n * 2 ^ (- e) in
  let den := if 0 <=? e then d * 2 ^ e else d in
  let k := num / den in
  let r := num mod den in
  let m :=
    if den <? 2 * r then k + 1
    else if 2 * r =? den then (if Z.even k then k else k + 1)
    else k in
  normalize m e.

Definition zero : number := Finite 0 (-1074).

(** The nearest binary64 value to [(-1)^negative * n / d], [0 <= n], [0 < d]. *)
Definition round_signed (negative : bool) (n d : Z) : number :=
  if n =? 0 then zero
  else match round_ratio n d with
       | Finite m e => Finite (if negative then - m else m) e
       | Infinity _ => Infinity negative
       | NaN => NaN
       end.

(** The value of a decimal numeral: the digits [ds] (integer and fraction
    digits together) scaled by [10^scale]. *)
Definition of_decimal (negative : bool) (ds : jsstring) (scale : Z) : number :=
  let n := digits_value ds in
  if 0 <=? scale then round_signed negative (n * 10 ^ scale) 1
  else round_signed negative n (10 ^ (- scale)).

(** The relational operator [a > b]: false as soon as an operand is NaN. *)
Definition gt (a b : number) : bool :=
  match a, b with
  | NaN, _ | _, NaN => false
  | Infinity na, Infinity nb => nb && negb na
  | Infinity na, Finite _ _ => negb na
  | Finite _ _, Infinity nb => nb
  | Finite m1 e1, Finite m2 e2 =>
      let e := Z.min e1 e2 in
      m2 * 2 ^ (e2 - e) <? m1 * 2 ^ (e1 - e)
  end.

(** The relational operator [a <= b]. *)
Definition le (a b : number) : bool :=
  match a, b with
  | NaN, _ | _, NaN => false
  | Infinity na, Infinity nb => na || negb nb
  | Infinity na, Finite _ _ => na
  | Finite _ _, Infinity nb => negb nb
  | Finite m1 e1, Finite m2 e2 =>
      let e := Z.min e1 e2 in
      m1 * 2 ^ (e1 - e) <=? m2 * 2 ^ (e2 - e)
  end.

(** An optional exponent part [(e|E) (+|-)? digits+]: its value and the
    text after it; [None] when the text does not start with one. *)
Definition scan_exponent (s : jsstring) : option (Z * jsstring) :=
  match s with
  | c :: r =>
      if (c =? 101) || (c =? 69) then
        let '(negative, r') := take_sign true r in
        match span_digits r' with
        | ([], _) => None
        | (ds, rest) =>
            Some (if negative then - digits_value ds else digits_value ds, rest)
        end
      else None
  | [] => None
  end.

(** White space and line terminators skipped by [parseFloat]
    ([StrWhiteSpaceChar]). *)
Definition StrWhiteSpaceChar (c : Z) : bool :=
  existsb (Z.eqb c)
    [9; 10; 11; 12; 13; 32; 160; 5760; 8232; 8233; 8239; 8287; 12288; 65279]
  || ((8192 <=? c) && (c <=? 8202)).

Fixpoint TrimStart (s : jsstring) : jsstring :=
  match s with
  | c :: r => if StrWhiteSpaceChar c then TrimStart r else s
  | [] => []
  end.

(** [parseFloat] on a string: leading white space is skipped, then the
    longest prefix that is a [StrDecimalLiteral] gives the value; NaN when
    no prefix is one. *)
Definition parseFloat (input : jsstring) : number :=
  let '(negative, body) := take_sign true (TrimStart input) in
  match strip_prefix (u "Infinity") body with
  | Some _ => Infinity negative
  | None =>
      let '(int_digits, r1) := span_digits body in
      let '(frac_digits, r2) :=
        match take_char 46 r1 with
        | Some r => span_digits r
        | None => ([], r1)
        end in
      match int_digits ++ frac_digits with
      | [] => NaN
      | ds =>
          let exponent :=
            match scan_exponent r2 with
            | Some (x, _) => x
            | None => 0
            end in
          of_decimal negative ds (exponent - Z.of_nat (length frac_digits))
      end
  end.

(** The numeric literal [0.1] of the source. *)
Definition threshold : number := of_decimal false (u "01") (-1).

End Number.
Import Number.

(* ================================================================== *)
(** * Insertion-ordered maps *)
(* ================================================================== *)

(** ECMAScript's [Map] and the own properties of an object are lists of
    key/value records: setting a key that is present overwrites its value in
    place, setting a new key appends a record, deleting drops the record. *)
Module Map.
Section Ops.
Context {V : Type}.

Definition t := list (jsstring * V).

Definition empty : t := [].

Fixpoint get (k : jsstring) (m : t) : option V :=
  match m with
  | [] => None
  | (k', v) :: r => if eqb k' k then Some v else get k r
  end.

Definition has (k : jsstring) (m : t) : bool :=
  match get k m with Some _ => true | None => false end.

Fixpoint set (k : jsstring) (v : V) (m : t) : t :=
  match m with
  | [] => [(k, v)]
  | (k', v') :: r =>
      if eqb k' k then (k', v) :: r else (k', v') :: set k v r
  end.

Fixpoint delete (k : jsstring) (m : t) : t :=
  match m with
  | [] => []
  | (k', v') :: r => if eqb k' k then r else (k', v') :: delete k r
  end.

Definition size (m : t) : nat := length m.

Definition keys (m : t) : list jsstring := map fst m.

(** The records, in insertion order. *)
Definition entries (m : t) : list (jsstring * V) := m.

End Ops.
Arguments t : clear implicits.
End Map.

(* ================================================================== *)
(** * JSON.parse *)
(* ================================================================== *)

Module JSON.

(** The values a parsed text and its property reads can produce. *)
#[warnings="-register-all"]
Inductive value :=
| JUndefined
| JNull
| JBool (b : bool)
| JNumber (n : number)
| JString (s : jsstring)
| JArray (items : list value)
| JObject (props : list (jsstring * value)).

(** Outcome of reading a prefix of the text. *)
Inductive parsed (A : Type) :=
| Parsed (a : A) (rest : jsstring)
| SyntaxError
| OutOfFuel.
Arguments Parsed {A} a rest.
Arguments SyntaxError {A}.
Arguments OutOfFuel {A}.

Definition is_ws (c : Z) : bool :=
  (c =? 9) || (c =? 10) || (c =? 13) || (c =? 32).

Fixpoint skip_ws (s : jsstring) : jsstring :=
  match s with
  | c :: r => if is_ws c then skip_ws r else s
  | [] => []
  end.

Definition hex_value (c : Z) : option Z :=
  if (48 <=? c) && (c <=? 57) then Some (c - 48)
  else if (97 <=? c) && (c <=? 102) then Some (c - 87)
  else if (65 <=? c) && (c <=? 70) then Some (c - 55)
  else None.

Definition hex4 (a b c d : Z) : option Z :=
  match hex_value a, hex_value b, hex_value c, hex_value d with
  | Some x, Some y, Some z, Some w => Some (((x * 16 + y) * 16 + z) * 16 + w)
  | _, _, _, _ => None
  end.

(** The character a single-letter escape stands for. *)
Definition escape (c : Z) : option Z :=
  if c =? 34 then Some 34
  else if c =? 92 then Some 92
  else if c =? 47 then Some 47
  else if c =? 98 then Some 8
  else if c =? 102 then Some 12
  else if c =? 110 then Some 10
  else if c =? 114 then Some 13
  else if c =? 116 then Some 9
  else None.

Definition cons_parsed (c : Z) (p : parsed jsstring) : parsed jsstring :=
  match p with
  | Parsed s rest => Parsed (c :: s) rest
  | SyntaxError => SyntaxError
  | OutOfFuel => OutOfFuel
  end.

(** The characters of a string literal, read after its opening quote up to
    and including the closing quote. *)
Fixpoint parse_chars (s : jsstring) : parsed jsstring :=
  match s with
  | [] => SyntaxError
  | c :: r =>
      if c =? 34 then Parsed [] r
      else if c =? 92 then
        match r with
        | [] => SyntaxError
        | e :: r' =>
            if e =? 117 then
              match r' with
              | h1 :: h2 :: h3 :: h4 :: r'' =>
                  match hex4 h1 h2 h3 h4 with
                  | Some cu => cons_parsed cu (parse_chars r'')
                  | None => SyntaxError
                  end
              | _ => SyntaxError
              end
            else
              match escape e with
              | Some cu => cons_parsed cu (parse_chars r')
              | None => SyntaxError
              end
        end
      else if c <? 32 then SyntaxError
      else cons_parsed c (parse_chars r)
  end.

(** A number literal: [-? (0 | [1-9] digits) (. digits+)? ([eE] [+-]? digits+)?]. *)
Definition parse_number (s : jsstring) : parsed number :=
  let '(negative, body) := take_sign false s in
  let '(int_digits, r1) :=
    match take_char 48 body with
    | Some r => ([48], r)
    | None => span_digits body
    end in
  match int_digits with
  | [] => SyntaxError
  | _ :: _ =>
      let frac :=
        match take_char 46 r1 with
        | Some r =>
            match span_digits r with
            | ([], _) => None
            | (ds, rest) => Some (ds, rest)
            end
        | None => Some ([], r1)
        end in
      match frac with
      | None => SyntaxError
      | Some (frac_digits, r2) =>
          let ds := int_digits ++ frac_digits in
          let scale := - Z.of_nat (length frac_digits) in
          match r2 with
          | c :: _ =>
              if (c =? 101) || (c =? 69) then
                match scan_exponent r2 with
                | Some (x, rest) => Parsed (of_decimal negative ds (x + scale)) rest
                | None => SyntaxError
                end
              else Parsed (of_decimal negative ds scale) r2
          | [] => Parsed (of_decimal negative ds scale) r2
          end
      end
  end.

(** One of the literals [true], [false], [null]. *)
Definition parse_literal (s : jsstring) : parsed value :=
  match strip_prefix (u "true") s with
  | Some r => Parsed (JBool true) r
  | None =>
      match strip_prefix (u "false") s with
      | Some r => Parsed (JBool false) r
      | None =>
          match strip_prefix (u "null") s with
          | Some r => Parsed JNull r
          | None => SyntaxError
          end
      end
  end.

(** The text after the token [c], white space before it skipped. *)
Definition token (c : Z) (s : jsstring) : option jsstring :=
  take_char c (skip_ws s).

(** Recursive descent over the JSON grammar.  [fuel] bounds the nesting of
    calls; [parse_fuel] below always suffices ([parse_value_fuel]).  A key
    that occurs twice in an object keeps its last value. *)
Fixpoint parse_value (fuel : nat) (s : jsstring) : parsed value :=
  match fuel with
  | O => OutOfFuel
  | S fuel' =>
      match skip_ws s with
      | [] => SyntaxError
      | c :: r =>
          if c =? 123 then
            match token 125 r with
            | Some r' => Parsed (JObject []) r'
            | None => parse_members fuel' r []
            end
          else if c =? 91 then
            match token 93 r with
            | Some r' => Parsed (JArray []) r'
            | None => parse_elements fuel' r []
            end
          else if c =? 34 then
            match parse_chars r with
            | Parsed str r' => Parsed (JString str) r'
            | SyntaxError => SyntaxError
            | OutOfFuel => OutOfFuel
            end
          else if (c =? 45) || is_digit c then
            match parse_number (c :: r) with
            | Parsed n r' => Parsed (JNumber n) r'
            | SyntaxError => SyntaxError
            | OutOfFuel => OutOfFuel
            end
          else parse_literal (c :: r)
      end
  end

with parse_elements (fuel : nat) (s : jsstring) (acc : list value)
  : parsed value :=
  match fuel with
  | O => OutOfFuel
  | S fuel' =>
      match parse_value fuel' s with
      | Parsed v r =>
          match token 44 r with
          | Some r' => parse_elements fuel' r' (v :: acc)
          | None =>
              match token 93 r with
              | Some r' => Parsed (JArray (rev (v :: acc))) r'
              | None => SyntaxError
              end
          end
      | SyntaxError => SyntaxError
      | OutOfFuel => OutOfFuel
      end
  end

with parse_members (fuel : nat) (s : jsstring) (acc : list (jsstring * value))
  : parsed value :=
  match fuel with
  | O => OutOfFuel
  | S fuel' =>
      match token 34 s with
      | Some r =>
          match parse_chars r with
          | Parsed key r1 =>
              match token 58 r1 with
              | Some r2 =>
                  match parse_value fuel' r2 with
                  | Parsed v r3 =>
                      match token 44 r3 with
                      | Some r4 => parse_members fuel' r4 (Map.set key v acc)
                      | None =>
                          match token 125 r3 with
                          | Some r4 => Parsed (JObject (Map.set key v acc)) r4
                          | None => SyntaxError
                          end
                      end
                  | SyntaxError => SyntaxError
                  | OutOfFuel => OutOfFuel
                  end
              | None => SyntaxError
              end
          | SyntaxError => SyntaxError
          | OutOfFuel => OutOfFuel
          end
      | None => SyntaxError
      end
  end.

Definition parse_fuel (s : jsstring) : nat := 2 * length s + 1.

(** [JSON.parse(text)]: the value of the text, or [None] where the runtime
    throws a SyntaxError. *)
Definition parse (text : jsstring) : option value :=
  match parse_value (parse_fuel text) text with
  | Parsed v rest =>
      match skip_ws rest with
      | [] => Some v
      | _ :: _ => None
      end
  | SyntaxError => None
  | OutOfFuel => None
  end.

(** [JSON.stringify({ status: "received", timestamp: t })] for an integer
    [t]: the two properties in creation order, without white space. *)
Definition stringify_ack (t : Z) : jsstring :=
  q "{'status':'received','timestamp':" ++ of_Z t ++ u "}".

End JSON.
Import JSON.

(* ================================================================== *)
(** * The runtime the server runs on *)
(* ================================================================== *)

(** What the program takes from Node.js and leaves the embedding no
    definition to translate: the system clock, locale formatting, the
    decoding of a datagram's bytes and the coercion of values that are not
    strings.  Every theorem holds for each runtime. *)
Class Runtime := {
  (** the [n]-th reading of the system clock, in milliseconds since the epoch
      ([Date.now()] and [new Date()]) *)
  clock : nat -> Z;
  (** [Date.prototype.toLocaleTimeString] of a time value *)
  toLocaleTimeString : Z -> jsstring;
  (** [Buffer.prototype.toString]: the bytes of a datagram decoded as UTF-8 *)
  Buffer_toString : list Z -> jsstring;
  (** [ToString] of a value that is not a string ([None]: it throws a
      TypeError, as for an object whose own [toString] is not callable) *)
  ToString_other : value -> option jsstring;
  (** [process.uptime().toFixed(0)] after [n] clock readings *)
  uptime_toFixed : nat -> jsstring
}.

(** The sender of a datagram ([dgram.RemoteInfo]). *)
Module RemoteInfo.
Record t := { address : jsstring; port : Z }.
End RemoteInfo.
Abbreviation RemoteInfo := RemoteInfo.t.

(** What the program does to the outside world. *)
Inductive effect :=
| ConsoleLog (line : jsstring)
| ConsoleError (line : jsstring)
| SocketSend (message : jsstring) (port : Z) (address : jsstring).

(** The fields of the [UDPServer] instance (the socket apart). *)
Record UDPServer := {
  port : Z;
  clients : Map.t Z
}.

Record World := {
  this : UDPServer;
  (** how many times the clock was read *)
  ticks : nat;
  (** the effects so far, oldest first *)
  trace : list effect
}.

(** [new UDPServer(port)] *)
Definition UDPServer_new (port : Z) : World :=
  {| this := {| port := port; clients := Map.empty |};
     ticks := 0;
     trace := [] |}.

(** ** Statements: state and exceptions *)

(** The errors the program can meet: [JSON.parse] throws a SyntaxError, a
    property read or method call on the wrong kind of value a TypeError, and
    the socket a RangeError ([ERR_SOCKET_BAD_PORT]) for a destination port
    it cannot send to. *)
Inductive exn := ESyntaxError | ETypeError | ERangeError.

Inductive result (A : Type) :=
| Ok (a : A)
| Throw (e : exn).
Arguments Ok {A} a.
Arguments Throw {A} e.

Definition result_bind {A B} (r : result A) (k : A -> result B) : result B :=
  match r with
  | Ok a => k a
  | Throw e => Throw e
  end.

Declare Scope result_scope.
Delimit Scope result_scope with result.
Notation "x <- c ;; k" := (result_bind c (fun x => k))
  (at level 61, c at next level, right associativity) : result_scope.

Definition M (A : Type) : Type := World -> result A * World.

Definition ret {A} (a : A) : M A := fun w => (Ok a, w).

Definition bind {A B} (c : M A) (k : A -> M B) : M B :=
  fun w =>
    match c w with
    | (Ok a, w') => k a w'
    | (Throw e, w') => (Throw e, w')
    end.

Definition throw {A} (e : exn) : M A := fun w => (Throw e, w).

(** [try { body } catch (err) { handler }]: what [body] did before throwing
    stays done. *)
Definition try_catch {A} (body : M A) (handler : exn -> M A) : M A :=
  fun w =>
    match body w with
    | (Ok a, w') => (Ok a, w')
    | (Throw e, w') => handler e w'
    end.

Definition lift {A} (r : result A) : M A := fun w => (r, w).

Declare Scope monad_scope.
Delimit Scope monad_scope with monad.
Notation "x <- c ;; k" := (bind c (fun x => k))
  (at level 61, c at next level, right associativity) : monad_scope.
Notation "c ;; k" := (bind c (fun _ => k))
  (at level 61, right associativity) : monad_scope.
Local Open Scope monad_scope.

Fixpoint for_each {A} (xs : list A) (body : A -> M unit) : M unit :=
  match xs with
  | [] => ret tt
  | x :: rest => body x ;; for_each rest body
  end.

Definition emit (e : effect) : M unit :=
  fun w => (Ok tt, {| this := this w; ticks := ticks w;
                      trace := trace w ++ [e] |}).

Definition console_log (line : jsstring) : M unit := emit (ConsoleLog line).
Definition console_error (line : jsstring) : M unit := emit (ConsoleError line).

Definition get_clients : M (Map.t Z) := fun w => (Ok (clients (this w)), w).

Definition put_clients (m : Map.t Z) : M unit :=
  fun w => (Ok tt, {| this := {| port := port (this w); clients := m |};
                      ticks := ticks w; trace := trace w |}).

(** [this.clients.set(key, value)] *)
Definition clients_set (key : jsstring) (value : Z) : M unit :=
  m <- get_clients ;; put_clients (Map.set key value m).

(** [this.clients.delete(key)] *)
Definition clients_delete (key : jsstring) : M unit :=
  m <- get_clients ;; put_clients (Map.delete key m).

Definition this_port : M Z := fun w => (Ok (port (this w)), w).

(** ** Property reads and coercions *)

(** [v.name], for the names the program reads: [left], [right], [x], [y],
    [angle] and [distance].  None of them is an array index or defined by a
    built-in prototype, so only an object's own properties can hold them;
    reading a property of [undefined] or [null] throws a TypeError. *)
Definition Get (v : value) (name : jsstring) : result value :=
  match v with
  | JUndefined | JNull => Throw ETypeError
  | JObject props =>
      Ok (match Map.get name props with Some x => x | None => JUndefined end)
  | _ => Ok JUndefined
  end.

(** [v.padStart(n)]: only a string has the method; on anything else the
    call throws a TypeError. *)
Definition call_padStart (v : value) (n : nat) : result jsstring :=
  match v with
  | JString s => Ok (padStart s n)
  | _ => Throw ETypeError
  end.

Section Server.
Context {rt : Runtime}.

(** [Date.now()] *)
Definition Date_now : M Z :=
  fun w => (Ok (clock (ticks w)),
            {| this := this w; ticks := S (ticks w); trace := trace w |}).

(** [new Date().toLocaleTimeString()] *)
Definition new_Date_toLocaleTimeString : M jsstring :=
  t <- Date_now ;; ret (toLocaleTimeString t).

Definition ToString (v : value) : result jsstring :=
  match v with
  | JString s => Ok s
  | _ => match ToString_other v with
         | Some s => Ok s
         | None => Throw ETypeError
         end
  end.

(** The global [parseFloat]: its argument is first turned into a string. *)
Definition parseFloat_value (v : value) : result number :=
  match ToString v with
  | Ok s => Ok (parseFloat s)
  | Throw e => Throw e
  end.

(** ** Literals of the source that are not ASCII *)

Definition cross_mark : jsstring := [10060].
Definition joystick : jsstring := [55357; 56697; 65039].
Definition round_pushpin : jsstring := [55357; 56525].
Definition box_line : jsstring := [9472].
Definition blue_circle : jsstring := [55357; 56629].
Definition green_circle : jsstring := [55357; 57314].
Definition degree_sign : jsstring := [176].
Definition speech_balloon : jsstring := [55357; 56492].
Definition memo : jsstring := [55357; 56541].
Definition electric_plug : jsstring := [55357; 56588].
Definition bar_chart : jsstring := [55357; 56522].
Definition busts : jsstring := [55357; 56421].
Definition newline : jsstring := [10].

(** ** The methods of [UDPServer] *)

(** The ports [server.send] accepts as a destination.  The socket checks
    the port before it does anything else, and zero is not allowed there:
    the port must be an integer from 1 to 65535. *)
Definition valid_port (p : Z) : bool := (1 <=? p) && (p <=? 65535).

(** [sendResponse]: the message is handed to the socket for the sender's
    port and address.  For a port the socket refuses, [server.send] itself
    throws a RangeError ([ERR_SOCKET_BAD_PORT]) and nothing is sent; the
    method has no [try] around the call, so the error reaches its caller.
    A failure of the transmission is reported later, through the callback
    ([sendResponse_callback]). *)
Definition sendResponse (message : jsstring) (rinfo : RemoteInfo) : M unit :=
  if valid_port (RemoteInfo.port rinfo) then
    emit (SocketSend message (RemoteInfo.port rinfo) (RemoteInfo.address rinfo))
  else throw ERangeError.

(** The callback [sendResponse] gives to [server.send]. *)
Definition sendResponse_callback (err : option jsstring) : M unit :=
  match err with
  | Some message =>
      console_error (cross_mark ++ u " Error sending response: " ++ message)
  | None => ret tt
  end.

(** [`${rinfo.address}:${rinfo.port}`] *)
Definition address_port (rinfo : RemoteInfo) : jsstring :=
  RemoteInfo.address rinfo ++ u ":" ++ of_Z (RemoteInfo.port rinfo).

(** The block of [handleJoystickData] that logs one joystick, written twice
    in the source: once for [data.left], once for [data.right]. *)
Definition log_joystick (heading : jsstring) (data : value) (name : jsstring)
  : M unit :=
  console_log heading ;;
  x <- lift (axis <- Get data name ;; v <- Get axis (u "x") ;;
             call_padStart v 6)%result ;;
  y <- lift (axis <- Get data name ;; v <- Get axis (u "y") ;;
             call_padStart v 6)%result ;;
  console_log (u "   X: " ++ x ++ u " | Y: " ++ y) ;;
  angle <- lift (axis <- Get data name ;; v <- Get axis (u "angle") ;;
                 call_padStart v 6)%result ;;
  distance <- lift (axis <- Get data name ;; v <- Get axis (u "distance") ;;
                    ToString v)%result ;;
  console_log (u "   Angle: " ++ angle ++ degree_sign ++ u " | Distance: "
               ++ distance).

Definition handleJoystickData (data : value) (rinfo : RemoteInfo) : M unit :=
  timestamp <- new_Date_toLocaleTimeString ;;
  leftDistance <- lift (axis <- Get data (u "left") ;;
                        v <- Get axis (u "distance") ;;
                        parseFloat_value v)%result ;;
  rightDistance <- lift (axis <- Get data (u "right") ;;
                         v <- Get axis (u "distance") ;;
                         parseFloat_value v)%result ;;
  (* Only log if joysticks are being moved *)
  if gt leftDistance threshold || gt rightDistance threshold then
    console_log (newline ++ joystick ++ u "  JOYSTICK DATA [" ++ timestamp
                 ++ u "]") ;;
    console_log (round_pushpin ++ u " From: " ++ address_port rinfo) ;;
    console_log (repeat box_line 50) ;;
    (if gt leftDistance threshold
     then log_joystick (blue_circle ++ u " LEFT JOYSTICK (Movement):")
            data (u "left")
     else ret tt) ;;
    (if gt rightDistance threshold
     then log_joystick (green_circle ++ u " RIGHT JOYSTICK (Camera):")
            data (u "right")
     else ret tt) ;;
    (* Send acknowledgment back to client *)
    now <- Date_now ;;
    sendResponse (stringify_ack now) rinfo
  else ret tt.

Definition handleTextMessage (message : jsstring) (rinfo : RemoteInfo)
  : M unit :=
  timestamp <- new_Date_toLocaleTimeString ;;
  console_log (newline ++ speech_balloon ++ u " TEXT MESSAGE [" ++ timestamp
               ++ u "]") ;;
  console_log (round_pushpin ++ u " From: " ++ address_port rinfo) ;;
  console_log (memo ++ u " Message: " ++ [dquote] ++ message ++ [dquote]) ;;
  console_log (repeat box_line 50) ;;
  (* Echo the message back *)
  sendResponse (u "Server received: " ++ [dquote] ++ message ++ [dquote]
                ++ u " at " ++ timestamp) rinfo.

(** [JSON.parse(message)] as a statement: a SyntaxError where the text is
    not JSON. *)
Definition JSON_parse (message : jsstring) : M value :=
  match JSON.parse message with
  | Some data => ret data
  | None => throw ESyntaxError
  end.

(** How an error is shown on the console, shortened to its name. *)
Definition describe (e : exn) : jsstring :=
  match e with
  | ESyntaxError => u "SyntaxError"
  | ETypeError => u "TypeError"
  | ERangeError => u "RangeError"
  end.

(** The listener of the socket's ["message"] event. *)
Definition on_message (msg : list Z) (rinfo : RemoteInfo) : M unit :=
  let clientId := address_port rinfo in
  now <- Date_now ;;
  clients_set clientId now ;;
  try_catch
    (let message := Buffer_toString msg in
     (* Try to parse as JSON (joystick data) *)
     try_catch
       (data <- JSON_parse message ;;
        handleJoystickData data rinfo)
       (fun _ =>
          (* Not JSON, handle as plain text message *)
          handleTextMessage message rinfo))
    (fun err =>
       console_error (u "Error processing message: " ++ describe err)).

(** Peers silent for longer than this many milliseconds are dropped. *)
Definition timeout : Z := 60000.

(** [cleanupClients].  The loop walks the live entries of the map and
    deletes only the entry it is at, so it meets exactly the entries the map
    held when the loop began, in their order. *)
Definition cleanupClients : M unit :=
  now <- Date_now ;;
  entries <- get_clients ;;
  for_each (Map.entries entries) (fun '(clientId, lastSeen) =>
    if now - lastSeen >? timeout then
      console_log (electric_plug ++ u " Client disconnected: " ++ clientId) ;;
      clients_delete clientId
    else ret tt).

Definition getStats : M unit :=
  console_log (newline ++ bar_chart ++ u " SERVER STATISTICS") ;;
  console_log (repeat (u "=") 50) ;;
  m <- get_clients ;;
  console_log (u "Active Clients: " ++ of_Z (Z.of_nat (Map.size m))) ;;
  p <- this_port ;;
  console_log (u "Port: " ++ of_Z p) ;;
  up <- (fun w => (Ok (uptime_toFixed (ticks w)), w)) ;;
  console_log (u "Uptime: " ++ up ++ u "s") ;;
  console_log (repeat (u "=") 50) ;;
  m <- get_clients ;;
  (if (0 <? Map.size m)%nat then
     console_log (newline ++ busts ++ u " Connected Clients:") ;;
     for_each (Map.entries m) (fun '(clientId, lastSeen) =>
       now <- Date_now ;;
       let secondsAgo := (now - lastSeen) / 1000 in
       console_log (u "   " ++ clientId ++ u " - Last seen: "
                    ++ of_Z secondsAgo ++ u "s ago"))
   else ret tt) ;;
  console_log [].

(** ** The event loop *)

(** Period of the sweep timer set up by [setupServer], and of the
    statistics timer of the main module, in milliseconds. *)
Definition cleanup_period : Z := 30000.
Definition stats_period : Z := 60000.

(** What the event loop delivers to the program. *)
Inductive event :=
| Message (msg : list Z) (rinfo : RemoteInfo)
| CleanupTimer
| StatsTimer
| SendDone (err : option jsstring).

Definition dispatch (e : event) : M unit :=
  match e with
  | Message msg rinfo => on_message msg rinfo
  | CleanupTimer => cleanupClients
  | StatsTimer => getStats
  | SendDone err => sendResponse_callback err
  end.

(** The events are handled one after the other; an exception that escapes a
    listener ends the process, and the events after it are never handled. *)
Fixpoint run (events : list event) : M unit :=
  match events with
  | [] => ret tt
  | e :: rest => dispatch e ;; run rest
  end.

End Server.

(* ================================================================== *)
(** * The shape of a joystick message *)
(* ================================================================== *)

(** The interface [JoystickData] of the source: two axes, each with the four
    properties [x], [y], [angle] and [distance], all of them strings. *)
Module JoystickData.
Record axis := {
  x : jsstring;
  y : jsstring;
  angle : jsstring;
  distance : jsstring
}.
Record t := { left : axis; right : axis }.
End JoystickData.

(** The string held by the property [name] of [v], if it is one. *)
Definition string_property (v : value) (name : jsstring) : option jsstring :=
  match Get v name with
  | Ok (JString s) => Some s
  | _ => None
  end.

Definition as_axis (v : value) : option JoystickData.axis :=
  match string_property v (u "x"), string_property v (u "y"),
        string_property v (u "angle"), string_property v (u "distance") with
  | Some x, Some y, Some angle, Some distance =>
      Some {| JoystickData.x := x; JoystickData.y := y;
              JoystickData.angle := angle; JoystickData.distance := distance |}
  | _, _, _, _ => None
  end.

(** A parsed value seen through the interface, when it has that shape. *)
Definition as_JoystickData (data : value) : option JoystickData.t :=
  match Get data (u "left"), Get data (u "right") with
  | Ok l, Ok r =>
      match as_axis l, as_axis r with
      | Some a, Some b =>
          Some {| JoystickData.left := a; JoystickData.right := b |}
      | _, _ => None
      end
  | _, _ => None
  end.

(** Is the text of a datagram a joystick message: JSON of that shape? *)
Definition is_JoystickData (text : jsstring) : bool :=
  match JSON.parse text with
  | Some data =>
      match as_JoystickData data with Some _ => true | None => false end
  | None => false
  end.

(** The test of [handleJoystickData] on one axis: [distance > 0.1]. *)
Definition moved (a : JoystickData.axis) : bool :=
  gt (parseFloat (JoystickData.distance a)) threshold.

(** An axis of a parsed value is missing: reading [data.name.distance]
    throws, [data] or [data.name] being [undefined] or [null]. *)
Definition axis_missing (data : value) (name : jsstring) : bool :=
  match Get data name with
  | Ok JUndefined | Ok JNull | Throw _ => true
  | Ok _ => false
  end.

(** ** Reading a trace *)

(** The datagrams handed to the socket: message, port and address. *)
Fixpoint sends (t : list effect) : list (jsstring * Z * jsstring) :=
  match t with
  | [] => []
  | SocketSend message p a :: rest => (message, p, a) :: sends rest
  | _ :: rest => sends rest
  end.

(** The reply of [handleTextMessage] to [message], stamped [timestamp]. *)
Definition echo (message timestamp : jsstring) : jsstring :=
  u "Server received: " ++ [dquote] ++ message ++ [dquote] ++ u " at "
  ++ timestamp.

(** What [handleJoystickData] logs for one moved joystick. *)
Definition axis_lines (heading : jsstring) (a : JoystickData.axis)
  : list effect :=
  [ConsoleLog heading;
   ConsoleLog (u "   X: " ++ padStart (JoystickData.x a) 6 ++ u " | Y: "
               ++ padStart (JoystickData.y a) 6);
   ConsoleLog (u "   Angle: " ++ padStart (JoystickData.angle a) 6
               ++ degree_sign ++ u " | Distance: " ++ JoystickData.distance a)].

(** What [handleJoystickData] logs for a message of the right shape in
    which a joystick moved, its time stamp being [timestamp]. *)
Definition joystick_lines (f : JoystickData.t) (rinfo : RemoteInfo)
    (timestamp : jsstring) : list effect :=
  [ConsoleLog (newline ++ joystick ++ u "  JOYSTICK DATA [" ++ timestamp
               ++ u "]");
   ConsoleLog (round_pushpin ++ u " From: " ++ address_port rinfo);
   ConsoleLog (repeat box_line 50)]
  ++ (if moved (JoystickData.left f)
      then axis_lines (blue_circle ++ u " LEFT JOYSTICK (Movement):")
             (JoystickData.left f)
      else [])
  ++ (if moved (JoystickData.right f)
      then axis_lines (green_circle ++ u " RIGHT JOYSTICK (Camera):")
             (JoystickData.right f)
      else []).

(** What [handleJoystickData] does with a message of the right shape from a
    sender the socket can reply to, its time stamp being [timestamp] and the
    clock reading [now] when the acknowledgment is built. *)
Definition joystick_effects (f : JoystickData.t) (rinfo : RemoteInfo)
    (timestamp : jsstring) (now : Z) : list effect :=
  if moved (JoystickData.left f) || moved (JoystickData.right f) then
    joystick_lines f rinfo timestamp
    ++ [SocketSend (stringify_ack now) (RemoteInfo.port rinfo)
          (RemoteInfo.address rinfo)]
  else [].

(** The whole outcome of [handleJoystickData] on a message of the right
    shape: where a joystick moved, the lines are logged and the
    acknowledgment is sent, or the socket refuses the sender's port. *)
Definition joystick_outcome {rt : Runtime} (f : JoystickData.t)
    (rinfo : RemoteInfo) (w : World) : result unit * World :=
  let timestamp := toLocaleTimeString (clock (ticks w)) in
  if moved (JoystickData.left f) || moved (JoystickData.right f) then
    if valid_port (RemoteInfo.port rinfo) then
      (Ok tt,
       {| this := this w; ticks := S (S (ticks w));
          trace := trace w ++ joystick_effects f rinfo timestamp
                                (clock (S (ticks w))) |})
    else
      (Throw ERangeError,
       {| this := this w; ticks := S (S (ticks w));
          trace := trace w ++ joystick_lines f rinfo timestamp |})
  else (Ok tt, {| this := this w; ticks := S (ticks w); trace := trace w |}).

(** What [handleTextMessage] logs. *)
Definition text_lines (message : jsstring) (rinfo : RemoteInfo)
    (timestamp : jsstring) : list effect :=
  [ConsoleLog (newline ++ speech_balloon ++ u " TEXT MESSAGE [" ++ timestamp
               ++ u "]");
   ConsoleLog (round_pushpin ++ u " From: " ++ address_port rinfo);
   ConsoleLog (memo ++ u " Message: " ++ [dquote] ++ message ++ [dquote]);
   ConsoleLog (repeat box_line 50)].

(** What [handleTextMessage] does for a sender the socket can reply to. *)
Definition text_effects (message : jsstring) (rinfo : RemoteInfo)
    (timestamp : jsstring) : list effect :=
  text_lines message rinfo timestamp
  ++ [SocketSend (echo message timestamp) (RemoteInfo.port rinfo)
        (RemoteInfo.address rinfo)].

(** The line the listener writes when the socket refuses the reply. *)
Definition refused_line : effect :=
  ConsoleError (u "Error processing message: " ++ describe ERangeError).

(** ** Properties of statements *)

(** The statement leaves the fields of the server as they are. *)
Definition keeps_this {A} (c : M A) : Prop :=
  forall w, this (snd (c w)) = this w.

(** The statement never throws. *)
Definition never_throws {A} (c : M A) : Prop :=
  forall w, exists a, fst (c w) = Ok a.

(** The number of clock readings never decreases. *)
Definition ticks_grow {A} (c : M A) : Prop :=
  forall w, (ticks w <= ticks (snd (c w)))%nat.

(** The registry of the server holds each key once. *)
Definition registry_ok (w : World) : Prop :=
  NoDup (Map.keys (clients (this w))).

(** The world once the sender of a datagram is recorded, the clock read. *)
Definition touched {rt : Runtime} (rinfo : RemoteInfo) (w : World) : World :=
  {| this := {| port := port (this w);
                clients := Map.set (address_port rinfo) (clock (ticks w))
                             (clients (this w)) |};
     ticks := S (ticks w);
     trace := trace w |}.

(** [parseFloat(data.name.distance)], as [handleJoystickData] evaluates it. *)
Definition read_distance {rt : Runtime} (data : value) (name : jsstring)
  : result number :=
  (axis <- Get data name ;; v <- Get axis (u "distance") ;;
   parseFloat_value v)%result.

(** The entries a sweep that reads the clock at [now] keeps. *)
Definition fresh (now : Z) (entry : jsstring * Z) : bool :=
  negb (now - snd entry >? timeout).

(** The lines [getStats] writes for the entries, the first of them at clock
    reading [n]. *)
Fixpoint stats_lines {rt : Runtime} (n : nat) (entries : list (jsstring * Z))
  : list effect :=
  match entries with
  | [] => []
  | (clientId, lastSeen) :: rest =>
      ConsoleLog (u "   " ++ clientId ++ u " - Last seen: "
                  ++ of_Z ((clock n - lastSeen) / 1000) ++ u "s ago")
      :: stats_lines (S n) rest
  end.

(** All that [getStats] writes. *)
Definition stats_report {rt : Runtime} (w : World) : list effect :=
  let m := clients (this w) in
  [ConsoleLog (newline ++ bar_chart ++ u " SERVER STATISTICS");
   ConsoleLog (repeat (u "=") 50);
   ConsoleLog (u "Active Clients: " ++ of_Z (Z.of_nat (Map.size m)));
   ConsoleLog (u "Port: " ++ of_Z (port (this w)));
   ConsoleLog (u "Uptime: " ++ uptime_toFixed (ticks w) ++ u "s");
   ConsoleLog (repeat (u "=") 50)]
  ++ (if (0 <? Map.size m)%nat
      then ConsoleLog (newline ++ busts ++ u " Connected Clients:")
           :: stats_lines (ticks w) (Map.entries m)
      else [])
  ++ [ConsoleLog []].

(** The lines written with [console.error]. *)
Fixpoint errors (t : list effect) : list jsstring :=
  match t with
  | [] => []
  | ConsoleError line :: rest => line :: errors rest
  | _ :: rest => errors rest
  end.



(** ** Further notions *)

(** The line [cleanupClients] logs for a peer it drops. *)
Definition disconnect_line (entry : jsstring * Z) : effect :=
  ConsoleLog (electric_plug ++ u " Client disconnected: " ++ fst entry).

(** The entries a sweep that reads the clock at [now] drops. *)
Definition stale (now : Z) (entry : jsstring * Z) : bool :=
  now - snd entry >? timeout.
(** The senders of the datagrams among the events. *)
Fixpoint senders (events : list event) : list RemoteInfo :=
  match events with
  | [] => []
  | Message _ rinfo :: rest => rinfo :: senders rest
  | _ :: rest => senders rest
  end.

(** Every entry of the registry is keyed by one of the senders [known] and
    holds a reading of the clock already taken. *)
Definition entries_known {rt : Runtime} (known : list RemoteInfo) (w : World)
  : Prop :=
  forall id lastSeen,
    In (id, lastSeen) (Map.entries (clients (this w))) ->
    (exists rinfo, In rinfo known /\ id = address_port rinfo) /\
    (exists n, (n < ticks w)%nat /\ lastSeen = clock n).
(** The effect is a line on [console.log]. *)
Definition is_log (e : effect) : Prop :=
  match e with ConsoleLog _ => True | _ => False end.

(** All the statement does to the outside is write to [console.log]. *)
Definition quiet {A} (c : M A) : Prop :=
  forall w, exists d, trace (snd (c w)) = trace w ++ d /\ Forall is_log d.

(** The statement writes to [console.log] and, at most once and only as the
    last thing before it returns, hands the socket an acknowledgment for
    [rinfo], whose port the socket accepts. *)
Definition replies_last (rinfo : RemoteInfo) (c : M unit) : Prop :=
  forall w, exists d,
    Forall is_log d /\
    (trace (snd (c w)) = trace w ++ d \/
     (fst (c w) = Ok tt /\
      valid_port (RemoteInfo.port rinfo) = true /\
      exists t,
        trace (snd (c w))
        = trace w ++ d
          ++ [SocketSend (q "{'status':'received','timestamp':" ++ of_Z t
                          ++ u "}")
                (RemoteInfo.port rinfo) (RemoteInfo.address rinfo)])).

(** The errors a handler can throw while it serves [rinfo]: a TypeError, or
    the RangeError of the socket when it refuses the port of [rinfo]. *)
Definition handler_error (rinfo : RemoteInfo) (e : exn) : Prop :=
  e = ETypeError \/
  (e = ERangeError /\ valid_port (RemoteInfo.port rinfo) = false).

(** The statement throws no other errors than those. *)
Definition throws_only {A} (allowed : exn -> Prop) (c : M A) : Prop :=
  forall w e, fst (c w) = Throw e -> allowed e.
(** The value of the character [c] as a digit in base [radix], if it is
    one. *)
Definition radix_digit (radix c : Z) : option Z :=
  let v :=
    if is_digit c then c - 48
    else if (97 <=? c) && (c <=? 122) then c - 87
    else if (65 <=? c) && (c <=? 90) then c - 55
    else radix in
  if v <? radix then Some v else None.

(** The values of the longest prefix of digits in base [radix]. *)
Fixpoint span_radix (radix : Z) (s : jsstring) : list Z :=
  match s with
  | c :: r =>
      match radix_digit radix c with
      | Some v => v :: span_radix radix r
      | None => []
      end
  | [] => []
  end.

(** [parseInt] with no radix given: white space is skipped, then a sign,
    then [0x] or [0X] selects base sixteen; the longest prefix of digits
    gives the value, NaN when there is none. *)
Definition parseInt (input : jsstring) : number :=
  let '(negative, signless) := take_sign true (TrimStart input) in
  let '(radix, body) :=
    match strip_prefix (u "0x") signless, strip_prefix (u "0X") signless with
    | Some r, _ => (16, r)
    | None, Some r => (16, r)
    | None, None => (10, signless)
    end in
  match span_radix radix body with
  | [] => NaN
  | ds => round_signed negative (fold_left (fun acc v => radix * acc + v) ds 0) 1
  end.

(** The constant [PORT] of the main module, from the environment variable
    of that name ([None] when it is not set):
    [process.env.PORT ? parseInt(process.env.PORT) : 8080]. *)
Definition PORT (env_PORT : option jsstring) : number :=
  match env_PORT with
  | Some (c :: rest) => parseInt (c :: rest)
  | Some [] | None => of_decimal false (u "8080") 0
  end.

(** A number that [>] never finds above the threshold. *)
Definition not_positive (x : number) : Prop :=
  match x with
  | NaN => True
  | Infinity negative => negative = true
  | Finite m _ => m <= 0
  end.

(** ** A concrete runtime *)

(** A runtime for the examples: a clock that advances a quarter of a second per
    reading, times printed as their number of milliseconds, ASCII datagrams
    (other bytes decode to U+FFFD), and the strings of the simple values;
    the coercions the examples never reach are left as failures. *)
Definition sample_runtime : Runtime := {|
  clock := fun n => 1700000000000 + 250 * Z.of_nat n;
  toLocaleTimeString := fun t => of_Z t;
  Buffer_toString := map (fun b => if b <? 128 then b else 65533);
  ToString_other := fun v =>
    match v with
    | JUndefined => Some (u "undefined")
    | JNull => Some (u "null")
    | JBool true => Some (u "true")
    | JBool false => Some (u "false")
    | JNumber NaN => Some (u "NaN")
    | JNumber (Infinity false) => Some (u "Infinity")
    | JNumber (Infinity true) => Some (u "-Infinity")
    | JNumber (Finite m e) =>
        if (0 <=? e) && (Z.abs m * 2 ^ e <? 10 ^ 21)
        then Some (of_Z (m * 2 ^ e)) else None
    | JObject props =>
        if Map.has (u "toString") props then None
        else Some (u "[object Object]")
    | JArray [] => Some []
    | _ => None
    end;
  uptime_toFixed := fun n => of_Z (Z.of_nat n)
|}.

Definition sample_sender : RemoteInfo :=
  {| RemoteInfo.address := u "192.168.1.20"; RemoteInfo.port := 50123 |}.

(** A sender whose datagrams carry the source port 0, which UDP allows for
    a sender that expects no reply. *)
Definition unreachable_sender : RemoteInfo :=
  {| RemoteInfo.address := u "192.168.1.20"; RemoteInfo.port := 0 |}.

(** The sample runtime with a system clock that is set back by five seconds
    after its first reading, as a time synchronisation can do. *)
Definition set_back_runtime : Runtime := {|
  clock := fun n =>
    match n with
    | O => 1700000005000
    | S _ => 1700000000000 + 250 * Z.of_nat n
    end;
  toLocaleTimeString := toLocaleTimeString (Runtime := sample_runtime);
  Buffer_toString := Buffer_toString (Runtime := sample_runtime);
  ToString_other := ToString_other (Runtime := sample_runtime);
  uptime_toFixed := uptime_toFixed (Runtime := sample_runtime)
|}.

(** ** Sample datagrams *)

Definition moving_left : list Z :=
  q "{'left':{'x':'50','y':'0','angle':'0','distance':'0.5'},'right':{'x':'0','y':'0','angle':'0','distance':'0.0'}}".
Definition centred : list Z :=
  q "{'left':{'x':'0','y':'0','angle':'0','distance':'0.0'},'right':{'x':'0','y':'0','angle':'0','distance':'0.0'}}".
Definition left_only : list Z :=
  q "{'left':{'x':'50','y':'0','angle':'0','distance':'0.5'}}".
Definition empty_axes : list Z := q "{'left':{},'right':{}}".
Definition foo_object : list Z := q "{'foo':1}".

(** The value of a text that is JSON. *)
Definition value_of (text : jsstring) : value :=
  match JSON.parse text with Some data => data | None => JUndefined end.


(** A server that knows two peers when the sample clock starts: one last
    seen seventy seconds before, one ten seconds before. *)
Definition two_peers : World :=
  {| this := {| port := 8080;
                clients := [(u "10.0.0.1:4000", 1699999930000);
                            (u "10.0.0.2:4000", 1699999990000)] |};
     ticks := 0;
     trace := [] |}.

Definition reordered : list Z :=
  q "{'seq':7,'right':{'distance':'0.0','angle':'0','y':'0','x':'0'},'left':{'x':'50','y':'0','angle':'0','distance':'0.5'}}".

Definition moving_left_frame : JoystickData.t :=
  {| JoystickData.left :=
       {| JoystickData.x := u "50"; JoystickData.y := u "0";
          JoystickData.angle := u "0"; JoystickData.distance := u "0.5" |};
     JoystickData.right :=
       {| JoystickData.x := u "0"; JoystickData.y := u "0";
          JoystickData.angle := u "0"; JoystickData.distance := u "0.0" |} |}.

Definition pulled_back : list Z :=
  q "{'left':{'x':'0','y':'-50','angle':'270','distance':'-0.5'},'right':{'x':'0','y':'0','angle':'0','distance':'-0'}}".

Definition pulled_back_frame : JoystickData.t :=
  {| JoystickData.left :=
       {| JoystickData.x := u "0"; JoystickData.y := u "-50";
          JoystickData.angle := u "270"; JoystickData.distance := u "-0.5" |};
     JoystickData.right :=
       {| JoystickData.x := u "0"; JoystickData.y := u "0";
          JoystickData.angle := u "0"; JoystickData.distance := u "-0" |} |}.

Definition distance_only : list Z := q "{'left':{'distance':'0.5'},'right':{}}".





(* ================================================================== *)
(** * Facts about strings *)
(* ================================================================== *)

Module JsStringFacts.

Lemma eqb_eq (a b : jsstring) : eqb a b = true <-> a = b.
Proof.
  revert b; induction a as [|x a IH]; intros [|y b]; simpl; split;
    try congruence; try discriminate.
  - intros H. apply andb_true_iff in H as [Hx Hab].
    apply Z.eqb_eq in Hx. apply IH in Hab. congruence.
  - intros H. injection H as -> ->. rewrite Z.eqb_refl. simpl. now apply IH.
Qed.

Lemma eqb_refl (a : jsstring) : eqb a a = true.
Proof. now apply eqb_eq. Qed.

Lemma eqb_neq (a b : jsstring) : eqb a b = false <-> a <> b.
Proof.
  split.
  - intros H E. apply eqb_eq in E. congruence.
  - intros H. destruct (eqb a b) eqn:E; [|reflexivity].
    apply eqb_eq in E. contradiction.
Qed.

Lemma take_char_length (c : Z) (s r : jsstring) :
  take_char c s = Some r -> (S (length r) = length s)%nat.
Proof.
  destruct s as [|x s]; simpl; [discriminate|].
  destruct (x =? c); [|discriminate]. intros H. injection H as <-. reflexivity.
Qed.

Lemma take_sign_length (p : bool) (s : jsstring) :
  (length (snd (take_sign p s)) <= length s)%nat.
Proof.
  destruct s as [|c s]; simpl; [lia|].
  destruct (c =? 45); simpl; [lia|].
  destruct (p && (c =? 43)); simpl; lia.
Qed.

Lemma span_digits_length (s : jsstring) :
  (length (snd (span_digits s)) <= length s)%nat.
Proof.
  induction s as [|c r IH]; simpl; [lia|].
  destruct (is_digit c); simpl; [|lia].
  destruct (span_digits r); simpl in *; lia.
Qed.

Lemma strip_prefix_length (p s r : jsstring) :
  strip_prefix p s = Some r -> (length r + length p = length s)%nat.
Proof.
  revert s; induction p as [|x p IH]; intros [|y s]; simpl; intros H;
    try discriminate; try (injection H as <-; simpl; lia).
  destruct (x =? y); [|discriminate]. apply IH in H. lia.
Qed.

End JsStringFacts.
Import JsStringFacts.

(* ================================================================== *)
(** * The parser never runs out of fuel *)
(* ================================================================== *)

Module JSONFacts.

Lemma skip_ws_length (s : jsstring) : (length (skip_ws s) <= length s)%nat.
Proof.
  induction s as [|c r IH]; simpl; [lia|].
  destruct (is_ws c); simpl; lia.
Qed.

Lemma skip_ws_cons (s r : jsstring) (c : Z) :
  skip_ws s = c :: r -> (S (length r) <= length s)%nat.
Proof.
  intros H. pose proof (skip_ws_length s) as L. rewrite H in L. exact L.
Qed.

Lemma cons_parsed_inv (c : Z) (p : parsed jsstring) (a rest : jsstring) :
  cons_parsed c p = Parsed a rest ->
  exists a', p = Parsed a' rest /\ a = c :: a'.
Proof.
  destruct p; simpl; intros H; try discriminate.
  injection H as <- <-. eauto.
Qed.

Lemma parse_chars_spec (n : nat) :
  forall s, (length s <= n)%nat ->
    parse_chars s <> OutOfFuel /\
    forall a r, parse_chars s = Parsed a r -> (S (length r) <= length s)%nat.
Proof.
  induction n as [|n IH]; intros [|c s] L; simpl in *; try lia;
    try (split; [discriminate | intros; discriminate]).
  assert (IHs : forall t, (length t <= length s)%nat ->
            forall cu, cons_parsed cu (parse_chars t) <> OutOfFuel /\
              forall a r, cons_parsed cu (parse_chars t) = Parsed a r ->
                          (S (length r) <= length t)%nat).
  { intros t Lt cu. destruct (IH t ltac:(lia)) as [F B]. split.
    - destruct (parse_chars t); simpl; congruence.
    - intros a r H. apply cons_parsed_inv in H as (a' & H & _). eauto. }
  destruct (c =? 34).
  { split; [discriminate|]. intros a r H. injection H as <- <-. lia. }
  destruct (c =? 92).
  - destruct s as [|e s]; [split; [discriminate | intros; discriminate]|].
    destruct (e =? 117).
    + destruct s as [|h1 [|h2 [|h3 [|h4 s]]]];
        try (split; [discriminate | intros; discriminate]).
      destruct (hex4 h1 h2 h3 h4);
        [|split; [discriminate | intros; discriminate]].
      destruct (IHs s ltac:(simpl; lia) z) as [F B]. split; [exact F|].
      intros a r H. apply B in H. simpl. lia.
    + destruct (escape e); [|split; [discriminate | intros; discriminate]].
      destruct (IHs s ltac:(simpl; lia) z) as [F B]. split; [exact F|].
      intros a r H. apply B in H. simpl. lia.
  - destruct (c <? 32); [split; [discriminate | intros; discriminate]|].
    destruct (IHs s ltac:(lia) c) as [F B]. split; [exact F|].
    intros a r H. apply B in H. lia.
Qed.

Lemma parse_chars_fuel (s : jsstring) : parse_chars s <> OutOfFuel.
Proof. exact (proj1 (parse_chars_spec (length s) s (le_n _))). Qed.

Lemma parse_chars_length (s a r : jsstring) :
  parse_chars s = Parsed a r -> (S (length r) <= length s)%nat.
Proof. exact (proj2 (parse_chars_spec (length s) s (le_n _)) a r). Qed.

Lemma token_length (c : Z) (s r : jsstring) :
  token c s = Some r -> (S (length r) <= length s)%nat.
Proof.
  unfold token. intros H. apply take_char_length in H.
  pose proof (skip_ws_length s). lia.
Qed.

Lemma scan_exponent_length (s rest : jsstring) (x : Z) :
  scan_exponent s = Some (x, rest) -> (length rest <= length s)%nat.
Proof.
  unfold scan_exponent. destruct s as [|c r]; [discriminate|].
  destruct ((c =? 101) || (c =? 69)); [|discriminate].
  pose proof (take_sign_length true r) as LS.
  destruct (take_sign true r) as [negative r']. simpl in LS.
  pose proof (span_digits_length r') as LD.
  destruct (span_digits r') as [[|d ds] rest0]; [discriminate|].
  intros H. injection H as _ <-. simpl in *. lia.
Qed.

Lemma parse_number_fuel (s : jsstring) : parse_number s <> OutOfFuel.
Proof.
  unfold parse_number.
  repeat match goal with
  | |- context [let '(_, _) := ?x in _] => destruct x
  | |- context [match ?x with _ => _ end] => destruct x
  end; discriminate.
Qed.

Lemma parse_number_length (s rest : jsstring) (n : number) :
  parse_number s = Parsed n rest -> (length rest <= length s)%nat.
Proof.
  unfold parse_number.
  pose proof (take_sign_length false s) as LS.
  destruct (take_sign false s) as [negative body]. simpl in LS.
  assert (L1 : forall ds r1,
            match take_char 48 body with
            | Some r => ([48], r)
            | None => span_digits body
            end = (ds, r1) -> (length r1 <= length body)%nat).
  { intros ds r1. destruct (take_char 48 body) as [r|] eqn:E.
    - intros H. injection H as _ <-. apply take_char_length in E. lia.
    - intros H. pose proof (span_digits_length body) as L.
      rewrite H in L. exact L. }
  destruct (match take_char 48 body with Some r => _ | None => _ end)
    as [ds r1]. specialize (L1 ds r1 eq_refl).
  destruct ds as [|d ds]; [discriminate|].
  destruct (take_char 46 r1) as [r|] eqn:E.
  - apply take_char_length in E.
    pose proof (span_digits_length r) as L2.
    destruct (span_digits r) as [[|f fs] r2]; [discriminate|]. simpl in L2.
    destruct r2 as [|c r2'].
    + intros H. injection H as _ <-. simpl. lia.
    + destruct ((c =? 101) || (c =? 69)).
      * destruct (scan_exponent (c :: r2')) as [[x rest0]|] eqn:X;
          [|discriminate].
        apply scan_exponent_length in X.
        intros H. injection H as _ <-. lia.
      * intros H. injection H as _ <-. lia.
  - destruct r1 as [|c r1'].
    + intros H. injection H as _ <-. simpl. lia.
    + destruct ((c =? 101) || (c =? 69)).
      * destruct (scan_exponent (c :: r1')) as [[x rest0]|] eqn:X;
          [|discriminate].
        apply scan_exponent_length in X.
        intros H. injection H as _ <-. lia.
      * intros H. injection H as _ <-. lia.
Qed.

Lemma parse_literal_fuel (s : jsstring) : parse_literal s <> OutOfFuel.
Proof.
  unfold parse_literal.
  repeat match goal with
  | |- context [match ?x with _ => _ end] => destruct x
  end; discriminate.
Qed.

Lemma parse_literal_length (s rest : jsstring) (v : value) :
  parse_literal s = Parsed v rest -> (length rest <= length s)%nat.
Proof.
  unfold parse_literal.
  destruct (strip_prefix (u "true") s) eqn:E1.
  { intros H. injection H as _ <-. apply strip_prefix_length in E1. lia. }
  destruct (strip_prefix (u "false") s) eqn:E2.
  { intros H. injection H as _ <-. apply strip_prefix_length in E2. lia. }
  destruct (strip_prefix (u "null") s) eqn:E3; [|discriminate].
  intros H. injection H as _ <-. apply strip_prefix_length in E3. lia.
Qed.

Lemma parse_length (fuel : nat) :
  (forall s v r, parse_value fuel s = Parsed v r ->
     (length r <= length s)%nat) /\
  (forall s acc v r, parse_elements fuel s acc = Parsed v r ->
     (length r <= length s)%nat) /\
  (forall s acc v r, parse_members fuel s acc = Parsed v r ->
     (length r <= length s)%nat).
Proof.
  induction fuel as [|fuel (IHv & IHe & IHm)];
    [repeat split; intros; discriminate|].
  repeat split.
  - intros s v r. simpl.
    destruct (skip_ws s) as [|c t] eqn:W; [discriminate|].
    apply skip_ws_cons in W.
    destruct (c =? 123).
    { destruct (token 125 t) as [t'|] eqn:T.
      - intros H. injection H as _ <-. apply token_length in T. lia.
      - intros H. apply IHm in H. lia. }
    destruct (c =? 91).
    { destruct (token 93 t) as [t'|] eqn:T.
      - intros H. injection H as _ <-. apply token_length in T. lia.
      - intros H. apply IHe in H. lia. }
    destruct (c =? 34).
    { destruct (parse_chars t) as [str t'| |] eqn:P; try discriminate.
      intros H. injection H as _ <-. apply parse_chars_length in P. lia. }
    destruct ((c =? 45) || is_digit c).
    { destruct (parse_number (c :: t)) as [n t'| |] eqn:P; try discriminate.
      intros H. injection H as _ <-. apply parse_number_length in P.
      simpl in P. lia. }
    intros H. apply parse_literal_length in H. simpl in H. lia.
  - intros s acc v r. simpl.
    destruct (parse_value fuel s) as [x t| |] eqn:P; try discriminate.
    apply IHv in P.
    destruct (token 44 t) as [t'|] eqn:T.
    { intros H. apply IHe in H. apply token_length in T. lia. }
    destruct (token 93 t) as [t'|] eqn:T'; [|discriminate].
    intros H. injection H as _ <-. apply token_length in T'. lia.
  - intros s acc v r. simpl.
    destruct (token 34 s) as [t|] eqn:T1; [|discriminate].
    apply token_length in T1.
    destruct (parse_chars t) as [key t1| |] eqn:P; try discriminate.
    apply parse_chars_length in P.
    destruct (token 58 t1) as [t2|] eqn:T2; [|discriminate].
    apply token_length in T2.
    destruct (parse_value fuel t2) as [x t3| |] eqn:PV; try discriminate.
    apply IHv in PV.
    destruct (token 44 t3) as [t4|] eqn:T.
    { intros H. apply IHm in H. apply token_length in T. lia. }
    destruct (token 125 t3) as [t4|] eqn:T'; [|discriminate].
    intros H. injection H as _ <-. apply token_length in T'. lia.
Qed.

Lemma parse_fuel_enough (fuel : nat) :
  (forall s, (2 * length s + 1 <= fuel)%nat ->
     parse_value fuel s <> OutOfFuel) /\
  (forall s acc, (2 * length s + 2 <= fuel)%nat ->
     parse_elements fuel s acc <> OutOfFuel) /\
  (forall s acc, (2 * length s + 2 <= fuel)%nat ->
     parse_members fuel s acc <> OutOfFuel).
Proof.
  induction fuel as [|fuel (IHv & IHe & IHm)];
    [repeat split; intros; lia|].
  destruct (parse_length fuel) as (Lv & _ & _).
  repeat split.
  - intros s F. simpl.
    destruct (skip_ws s) as [|c t] eqn:W; [discriminate|].
    apply skip_ws_cons in W.
    destruct (c =? 123).
    { destruct (token 125 t); [discriminate|]. apply IHm. lia. }
    destruct (c =? 91).
    { destruct (token 93 t); [discriminate|]. apply IHe. lia. }
    destruct (c =? 34).
    { pose proof (parse_chars_fuel t).
      destruct (parse_chars t); congruence. }
    destruct ((c =? 45) || is_digit c).
    { pose proof (parse_number_fuel (c :: t)).
      destruct (parse_number (c :: t)); congruence. }
    apply parse_literal_fuel.
  - intros s acc F. simpl.
    pose proof (IHv s ltac:(lia)) as NV.
    destruct (parse_value fuel s) as [x t| |] eqn:P;
      [|discriminate|congruence].
    apply Lv in P.
    destruct (token 44 t) as [t'|] eqn:T.
    { apply token_length in T. apply IHe. lia. }
    destruct (token 93 t); discriminate.
  - intros s acc F. simpl.
    destruct (token 34 s) as [t|] eqn:T1; [|discriminate].
    apply token_length in T1.
    pose proof (parse_chars_fuel t) as NC.
    destruct (parse_chars t) as [key t1| |] eqn:P;
      [|discriminate|congruence].
    apply parse_chars_length in P.
    destruct (token 58 t1) as [t2|] eqn:T2; [|discriminate].
    apply token_length in T2.
    pose proof (IHv t2 ltac:(lia)) as NV.
    destruct (parse_value fuel t2) as [x t3| |] eqn:PV;
      [|discriminate|congruence].
    apply Lv in PV.
    destruct (token 44 t3) as [t4|] eqn:T.
    { apply token_length in T. apply IHm. lia. }
    destruct (token 125 t3); discriminate.
Qed.

(** The fuel [parse] gives is enough: a text is rejected only for its
    syntax. *)
Lemma parse_value_fuel (text : jsstring) :
  parse_value (parse_fuel text) text <> OutOfFuel.
Proof. apply parse_fuel_enough. unfold parse_fuel. lia. Qed.

(** More fuel never changes an answer. *)
Lemma parse_fuel_mono (fuel : nat) :
  (forall s more, parse_value fuel s <> OutOfFuel ->
     parse_value (fuel + more) s = parse_value fuel s) /\
  (forall s acc more, parse_elements fuel s acc <> OutOfFuel ->
     parse_elements (fuel + more) s acc = parse_elements fuel s acc) /\
  (forall s acc more, parse_members fuel s acc <> OutOfFuel ->
     parse_members (fuel + more) s acc = parse_members fuel s acc).
Proof.
  induction fuel as [|fuel (IHv & IHe & IHm)];
    [repeat split; intros; simpl in *; congruence|].
  repeat split.
  - intros s more. simpl.
    destruct (skip_ws s) as [|c t]; [reflexivity|].
    destruct (c =? 123).
    { destruct (token 125 t); [reflexivity|]. apply IHm. }
    destruct (c =? 91).
    { destruct (token 93 t); [reflexivity|]. apply IHe. }
    reflexivity.
  - intros s acc more. simpl. intros H.
    destruct (parse_value fuel s) as [x t| |] eqn:P; try congruence.
    + rewrite IHv, P by congruence.
      destruct (token 44 t); [now apply IHe|reflexivity].
    + rewrite IHv, P by congruence. reflexivity.
  - intros s acc more. simpl. intros H.
    destruct (token 34 s) as [t|]; [|reflexivity].
    destruct (parse_chars t) as [key t1| |]; try reflexivity.
    destruct (token 58 t1) as [t2|]; [|reflexivity].
    destruct (parse_value fuel t2) as [x t3| |] eqn:P; try congruence.
    + rewrite IHv, P by congruence.
      destruct (token 44 t3); [now apply IHm|reflexivity].
    + rewrite IHv, P by congruence. reflexivity.
Qed.

(** The answer of [parse_value] on a text does not depend on the fuel, from
    [parse_fuel] on. *)
Lemma parse_fuel_irrelevant (text : jsstring) (more : nat) :
  parse_value (parse_fuel text + more) text
  = parse_value (parse_fuel text) text.
Proof. apply parse_fuel_mono, parse_value_fuel. Qed.

End JSONFacts.

(* ================================================================== *)
(** * Facts about insertion-ordered maps *)
(* ================================================================== *)

Module MapFacts.
Section Facts.
Context {V : Type}.
Implicit Types (m : Map.t V) (k : jsstring) (v : V).

Lemma get_set_same k v m : Map.get k (Map.set k v m) = Some v.
Proof.
  induction m as [|[k' v'] m IH]; simpl.
  - now rewrite eqb_refl.
  - destruct (eqb k' k) eqn:E; simpl; rewrite E; [reflexivity | exact IH].
Qed.

Lemma get_set_other k k' v m :
  k <> k' -> Map.get k' (Map.set k v m) = Map.get k' m.
Proof.
  intros N. apply eqb_neq in N.
  induction m as [|[k0 v0] m IH]; simpl.
  - now rewrite N.
  - destruct (eqb k0 k) eqn:E; simpl.
    + apply eqb_eq in E. subst k0. now rewrite N.
    + destruct (eqb k0 k'); [reflexivity | exact IH].
Qed.

Lemma has_in_keys k m : Map.has k m = true <-> In k (Map.keys m).
Proof.
  unfold Map.has. induction m as [|[k' v'] m IH]; simpl.
  - split; [discriminate | tauto].
  - destruct (eqb k' k) eqn:E.
    + apply eqb_eq in E. split; auto.
    + apply eqb_neq in E. rewrite IH. split; [auto | intros [H|H]; tauto].
Qed.

Lemma get_none_keys k m : Map.get k m = None <-> ~ In k (Map.keys m).
Proof.
  rewrite <- has_in_keys. unfold Map.has.
  destruct (Map.get k m); split; intros H; congruence.
Qed.

Lemma get_in_entries k v m :
  Map.get k m = Some v -> In (k, v) (Map.entries m).
Proof.
  unfold Map.entries. induction m as [|[k' v'] m IH]; simpl; [discriminate|].
  destruct (eqb k' k) eqn:E.
  - apply eqb_eq in E. intros H. injection H as ->. left. congruence.
  - auto.
Qed.

Lemma size_set k v m :
  Map.size (Map.set k v m)
  = if Map.has k m then Map.size m else S (Map.size m).
Proof.
  unfold Map.has, Map.size. induction m as [|[k' v'] m IH]; simpl.
  - reflexivity.
  - destruct (eqb k' k); simpl; [reflexivity|].
    rewrite IH. now destruct (Map.get k m).
Qed.

Lemma keys_set_present k v m :
  Map.has k m = true -> Map.keys (Map.set k v m) = Map.keys m.
Proof.
  unfold Map.has, Map.keys. induction m as [|[k' v'] m IH]; simpl.
  - discriminate.
  - destruct (eqb k' k); simpl; [reflexivity|].
    intros H. now rewrite IH.
Qed.

Lemma keys_set_absent k v m :
  Map.has k m = false -> Map.keys (Map.set k v m) = Map.keys m ++ [k].
Proof.
  unfold Map.has, Map.keys. induction m as [|[k' v'] m IH]; simpl.
  - reflexivity.
  - destruct (eqb k' k); simpl; [discriminate|].
    intros H. now rewrite IH.
Qed.

Lemma NoDup_set k v m :
  NoDup (Map.keys m) -> NoDup (Map.keys (Map.set k v m)).
Proof.
  intros H. destruct (Map.has k m) eqn:E.
  - now rewrite keys_set_present.
  - rewrite keys_set_absent by exact E.
    apply NoDup_app; repeat split; auto.
    + constructor; [simpl; tauto | constructor].
    + intros a Ha [<-|[]]. apply has_in_keys in Ha. congruence.
Qed.

Lemma keys_delete_incl k m : incl (Map.keys (Map.delete k m)) (Map.keys m).
Proof.
  unfold Map.keys. induction m as [|[k' v'] m IH]; simpl.
  - apply incl_refl.
  - destruct (eqb k' k); simpl.
    + apply incl_tl, incl_refl.
    + apply incl_cons; [now left | now apply incl_tl].
Qed.

Lemma NoDup_delete k m :
  NoDup (Map.keys m) -> NoDup (Map.keys (Map.delete k m)).
Proof.
  unfold Map.keys. induction m as [|[k' v'] m IH]; simpl; intros H.
  - constructor.
  - inversion H as [|? ? Hn Hd]; subst.
    destruct (eqb k' k); simpl; [exact Hd|].
    constructor; [|now apply IH].
    intros Hin. apply Hn. now apply (keys_delete_incl k m).
Qed.

Lemma get_delete_same k m :
  NoDup (Map.keys m) -> Map.get k (Map.delete k m) = None.
Proof.
  unfold Map.keys. induction m as [|[k' v'] m IH]; simpl; intros H.
  - reflexivity.
  - inversion H as [|? ? Hn Hd]; subst.
    destruct (eqb k' k) eqn:E; simpl.
    + apply eqb_eq in E. subst k'. now apply get_none_keys.
    + rewrite E. now apply IH.
Qed.

Lemma get_delete_other k k' m :
  k <> k' -> Map.get k' (Map.delete k m) = Map.get k' m.
Proof.
  intros N. apply eqb_neq in N.
  induction m as [|[k0 v0] m IH]; simpl; [reflexivity|].
  destruct (eqb k0 k) eqn:E; simpl.
  - apply eqb_eq in E. subst k0. now rewrite N.
  - destruct (eqb k0 k'); [reflexivity | exact IH].
Qed.

End Facts.
End MapFacts.
Import MapFacts.

(* ================================================================== *)
(** * Facts about statements *)
(* ================================================================== *)

Section StatementFacts.
Context {rt : Runtime}.

Lemma keeps_this_ret {A} (a : A) : keeps_this (ret a).
Proof. intros w. reflexivity. Qed.

Lemma keeps_this_throw {A} (e : exn) : keeps_this (@throw A e).
Proof. intros w. reflexivity. Qed.

Lemma keeps_this_lift {A} (r : result A) : keeps_this (lift r).
Proof. intros w. reflexivity. Qed.

Lemma keeps_this_emit (e : effect) : keeps_this (emit e).
Proof. intros w. reflexivity. Qed.

Lemma keeps_this_Date_now : keeps_this Date_now.
Proof. intros w. reflexivity. Qed.

Lemma keeps_this_get_clients : keeps_this get_clients.
Proof. intros w. reflexivity. Qed.

Lemma keeps_this_bind {A B} (c : M A) (k : A -> M B) :
  keeps_this c -> (forall a, keeps_this (k a)) -> keeps_this (bind c k).
Proof.
  intros Hc Hk w. unfold bind. specialize (Hc w).
  destruct (c w) as [[a|e] w']; simpl in *.
  - now rewrite Hk.
  - exact Hc.
Qed.

Lemma keeps_this_try_catch {A} (body : M A) (handler : exn -> M A) :
  keeps_this body -> (forall e, keeps_this (handler e)) ->
  keeps_this (try_catch body handler).
Proof.
  intros Hb Hh w. unfold try_catch. specialize (Hb w).
  destruct (body w) as [[a|e] w']; simpl in *.
  - exact Hb.
  - now rewrite Hh.
Qed.

Lemma keeps_this_if {A} (b : bool) (c1 c2 : M A) :
  keeps_this c1 -> keeps_this c2 -> keeps_this (if b then c1 else c2).
Proof. now destruct b. Qed.

Lemma keeps_this_for_each {A} (xs : list A) (body : A -> M unit) :
  (forall x, keeps_this (body x)) -> keeps_this (for_each xs body).
Proof.
  intros H. induction xs as [|x xs IH]; simpl.
  - apply keeps_this_ret.
  - apply keeps_this_bind; auto.
Qed.

Lemma never_throws_ret {A} (a : A) : never_throws (ret a).
Proof. intros w. now exists a. Qed.

Lemma never_throws_emit (e : effect) : never_throws (emit e).
Proof. intros w. now exists tt. Qed.

Lemma never_throws_Date_now : never_throws Date_now.
Proof. intros w. now exists (clock (ticks w)). Qed.

Lemma never_throws_get_clients : never_throws get_clients.
Proof. intros w. now exists (clients (this w)). Qed.

Lemma never_throws_put_clients (m : Map.t Z) : never_throws (put_clients m).
Proof. intros w. now exists tt. Qed.

Lemma never_throws_bind {A B} (c : M A) (k : A -> M B) :
  never_throws c -> (forall a, never_throws (k a)) -> never_throws (bind c k).
Proof.
  intros Hc Hk w. unfold bind. destruct (Hc w) as [a Ha].
  destruct (c w) as [[a'|e] w']; simpl in *; [apply Hk | discriminate].
Qed.

Lemma never_throws_try_catch {A} (body : M A) (handler : exn -> M A) :
  (forall e, never_throws (handler e)) -> never_throws (try_catch body handler).
Proof.
  intros Hh w. unfold try_catch.
  destruct (body w) as [[a|e] w']; simpl; [now exists a | apply Hh].
Qed.

Lemma never_throws_if {A} (b : bool) (c1 c2 : M A) :
  never_throws c1 -> never_throws c2 -> never_throws (if b then c1 else c2).
Proof. now destruct b. Qed.

Lemma never_throws_for_each {A} (xs : list A) (body : A -> M unit) :
  (forall x, never_throws (body x)) -> never_throws (for_each xs body).
Proof.
  intros H. induction xs as [|x xs IH]; simpl.
  - apply never_throws_ret.
  - apply never_throws_bind; auto.
Qed.

End StatementFacts.

Create HintDb statements.
#[export] Hint Resolve keeps_this_ret keeps_this_throw keeps_this_lift
  keeps_this_emit keeps_this_Date_now keeps_this_get_clients keeps_this_bind
  keeps_this_try_catch keeps_this_if keeps_this_for_each
  never_throws_ret never_throws_emit never_throws_Date_now
  never_throws_get_clients never_throws_put_clients never_throws_bind
  never_throws_try_catch never_throws_if never_throws_for_each : statements.

(* ================================================================== *)
(** * Facts about the server *)
(* ================================================================== *)

(** Unfolds the statement combinators and computes the record fields. *)
Ltac run_statement :=
  cbv beta iota delta [bind ret throw lift emit try_catch Date_now
    new_Date_toLocaleTimeString console_log console_error sendResponse
    get_clients put_clients clients_set clients_delete this_port];
  cbn [this ticks trace port clients fst snd].

Lemma sends_app (a b : list effect) : sends (a ++ b) = sends a ++ sends b.
Proof.
  induction a as [|e a IH]; [reflexivity|].
  destruct e; simpl; [exact IH | exact IH | now rewrite IH].
Qed.

Lemma le_not_gt (a b : number) : le a b = true -> gt a b = false.
Proof.
  destruct a as [|na|m1 e1], b as [|nb|m2 e2]; simpl; try congruence.
  - destruct na, nb; simpl; congruence.
  - now intros ->.
  - now destruct nb.
  - intros H. apply Z.leb_le in H. apply Z.ltb_ge. exact H.
Qed.

Section ServerFacts.
Context {rt : Runtime}.

Lemma keeps_this_handleJoystickData data rinfo :
  keeps_this (handleJoystickData data rinfo).
Proof.
  unfold handleJoystickData, log_joystick, new_Date_toLocaleTimeString,
    sendResponse, console_log.
  auto 30 with statements.
Qed.

Lemma keeps_this_handleTextMessage message rinfo :
  keeps_this (handleTextMessage message rinfo).
Proof.
  unfold handleTextMessage, new_Date_toLocaleTimeString, sendResponse,
    console_log.
  auto 30 with statements.
Qed.

Lemma handleTextMessage_eq message rinfo w :
  handleTextMessage message rinfo w
  = if valid_port (RemoteInfo.port rinfo) then
      (Ok tt, {| this := this w; ticks := S (ticks w);
                 trace := trace w ++ text_effects message rinfo
                            (toLocaleTimeString (clock (ticks w))) |})
    else
      (Throw ERangeError,
       {| this := this w; ticks := S (ticks w);
          trace := trace w ++ text_lines message rinfo
                     (toLocaleTimeString (clock (ticks w))) |}).
Proof.
  unfold handleTextMessage, text_effects, text_lines, echo. run_statement.
  destruct (valid_port (RemoteInfo.port rinfo)); run_statement;
    repeat rewrite <- app_assoc; reflexivity.
Qed.

Lemma handleTextMessage_sent message rinfo w :
  valid_port (RemoteInfo.port rinfo) = true ->
  handleTextMessage message rinfo w
  = (Ok tt, {| this := this w; ticks := S (ticks w);
               trace := trace w ++ text_effects message rinfo
                          (toLocaleTimeString (clock (ticks w))) |}).
Proof. intros V. now rewrite handleTextMessage_eq, V. Qed.

Lemma handleTextMessage_refused message rinfo w :
  valid_port (RemoteInfo.port rinfo) = false ->
  handleTextMessage message rinfo w
  = (Throw ERangeError,
     {| this := this w; ticks := S (ticks w);
        trace := trace w ++ text_lines message rinfo
                   (toLocaleTimeString (clock (ticks w))) |}).
Proof. intros V. now rewrite handleTextMessage_eq, V. Qed.

Lemma string_property_Get v name s :
  string_property v name = Some s -> Get v name = Ok (JString s).
Proof.
  unfold string_property. destruct (Get v name) as [[]|]; try discriminate.
  now intros [= ->].
Qed.

Lemma as_axis_inv v a :
  as_axis v = Some a ->
  Get v (u "x") = Ok (JString (JoystickData.x a)) /\
  Get v (u "y") = Ok (JString (JoystickData.y a)) /\
  Get v (u "angle") = Ok (JString (JoystickData.angle a)) /\
  Get v (u "distance") = Ok (JString (JoystickData.distance a)).
Proof.
  unfold as_axis.
  destruct (string_property v (u "x")) eqn:X; [|discriminate].
  destruct (string_property v (u "y")) eqn:Y; [|discriminate].
  destruct (string_property v (u "angle")) eqn:A; [|discriminate].
  destruct (string_property v (u "distance")) eqn:D; [|discriminate].
  intros [= <-]. simpl. auto using string_property_Get.
Qed.

Lemma as_JoystickData_inv data f :
  as_JoystickData data = Some f ->
  exists l r,
    Get data (u "left") = Ok l /\ Get data (u "right") = Ok r /\
    as_axis l = Some (JoystickData.left f) /\
    as_axis r = Some (JoystickData.right f).
Proof.
  unfold as_JoystickData.
  destruct (Get data (u "left")) as [l|]; [|discriminate].
  destruct (Get data (u "right")) as [r|]; [|discriminate].
  destruct (as_axis l) eqn:L; [|discriminate].
  destruct (as_axis r) eqn:R; [|discriminate].
  intros [= <-]. exists l, r. auto.
Qed.

Lemma handleJoystickData_shaped data f rinfo w :
  as_JoystickData data = Some f ->
  handleJoystickData data rinfo w = joystick_outcome f rinfo w.
Proof.
  intros H. apply as_JoystickData_inv in H as (l & r & Hl & Hr & Al & Ar).
  apply as_axis_inv in Al as (Lx & Ly & La & Ld).
  apply as_axis_inv in Ar as (Rx & Ry & Ra & Rd).
  unfold handleJoystickData, log_joystick, joystick_outcome, joystick_effects,
    joystick_lines, axis_lines, moved.
  rewrite Hl, Hr. unfold result_bind.
  rewrite Lx, Ly, La, Ld, Rx, Ry, Ra, Rd.
  unfold parseFloat_value, ToString, call_padStart. run_statement.
  destruct (gt (parseFloat (JoystickData.distance (JoystickData.left f))) threshold);
  destruct (gt (parseFloat (JoystickData.distance (JoystickData.right f))) threshold);
    run_statement; cbn [orb]; run_statement;
    destruct (valid_port (RemoteInfo.port rinfo)); run_statement;
    repeat rewrite <- app_assoc; cbn [app]; try rewrite app_nil_r;
    reflexivity.
Qed.

Lemma handleJoystickData_sent data f rinfo w :
  as_JoystickData data = Some f ->
  (moved (JoystickData.left f) || moved (JoystickData.right f) = true ->
   valid_port (RemoteInfo.port rinfo) = true) ->
  handleJoystickData data rinfo w
  = (Ok tt,
     {| this := this w;
        ticks := if moved (JoystickData.left f) || moved (JoystickData.right f)
                 then S (S (ticks w)) else S (ticks w);
        trace := trace w ++ joystick_effects f rinfo
                   (toLocaleTimeString (clock (ticks w)))
                   (clock (S (ticks w))) |}).
Proof.
  intros F V. rewrite (handleJoystickData_shaped _ _ _ _ F).
  unfold joystick_outcome, joystick_effects.
  destruct (moved (JoystickData.left f) || moved (JoystickData.right f)).
  - now rewrite V.
  - now rewrite app_nil_r.
Qed.

Lemma handleJoystickData_refused data f rinfo w :
  as_JoystickData data = Some f ->
  moved (JoystickData.left f) || moved (JoystickData.right f) = true ->
  valid_port (RemoteInfo.port rinfo) = false ->
  handleJoystickData data rinfo w
  = (Throw ERangeError,
     {| this := this w; ticks := S (S (ticks w));
        trace := trace w ++ joystick_lines f rinfo
                   (toLocaleTimeString (clock (ticks w))) |}).
Proof.
  intros F Mv V. rewrite (handleJoystickData_shaped _ _ _ _ F).
  unfold joystick_outcome. now rewrite Mv, V.
Qed.

Lemma Get_throws v name e : Get v name = Throw e -> e = ETypeError.
Proof. destruct v; simpl; congruence. Qed.

Lemma parseFloat_value_throws v e :
  parseFloat_value v = Throw e -> e = ETypeError.
Proof.
  unfold parseFloat_value, ToString.
  destruct v; try destruct (ToString_other _); congruence.
Qed.

Lemma read_distance_throws data name e :
  read_distance data name = Throw e -> e = ETypeError.
Proof.
  unfold read_distance, result_bind.
  destruct (Get data name) as [axis|e1] eqn:G1.
  - destruct (Get axis (u "distance")) as [v|e2] eqn:G2.
    + apply parseFloat_value_throws.
    + intros [= <-]. now apply Get_throws in G2.
  - intros [= <-]. now apply Get_throws in G1.
Qed.

Lemma read_distance_missing data name :
  axis_missing data name = true -> read_distance data name = Throw ETypeError.
Proof.
  unfold axis_missing, read_distance, result_bind.
  destruct (Get data name) as [[]|e] eqn:G; try discriminate; intros _;
    try reflexivity.
  now apply Get_throws in G as ->.
Qed.

Lemma handleJoystickData_axis_missing data rinfo w :
  axis_missing data (u "left") = true \/ axis_missing data (u "right") = true ->
  handleJoystickData data rinfo w
  = (Throw ETypeError,
     {| this := this w; ticks := S (ticks w); trace := trace w |}).
Proof.
  intros H. unfold handleJoystickData.
  change (axis <- Get data (u "left") ;; v <- Get axis (u "distance") ;;
          parseFloat_value v)%result with (read_distance data (u "left")).
  change (axis <- Get data (u "right") ;; v <- Get axis (u "distance") ;;
          parseFloat_value v)%result with (read_distance data (u "right")).
  destruct (read_distance data (u "left")) as [n|e] eqn:L.
  - destruct H as [H|H].
    + apply read_distance_missing in H. congruence.
    + apply read_distance_missing in H. rewrite H. reflexivity.
  - apply read_distance_throws in L as ->. reflexivity.
Qed.

Lemma on_message_touched msg rinfo w :
  on_message msg rinfo w
  = try_catch
      (try_catch
         (bind (JSON_parse (Buffer_toString msg))
            (fun data => handleJoystickData data rinfo))
         (fun _ => handleTextMessage (Buffer_toString msg) rinfo))
      (fun err => console_error (u "Error processing message: " ++ describe err))
      (touched rinfo w).
Proof. reflexivity. Qed.

Lemma on_message_shaped msg rinfo w data f :
  JSON.parse (Buffer_toString msg) = Some data ->
  as_JoystickData data = Some f ->
  (moved (JoystickData.left f) || moved (JoystickData.right f) = true ->
   valid_port (RemoteInfo.port rinfo) = true) ->
  on_message msg rinfo w
  = (Ok tt,
     {| this := this (touched rinfo w);
        ticks := if moved (JoystickData.left f) || moved (JoystickData.right f)
                 then S (S (S (ticks w))) else S (S (ticks w));
        trace := trace w ++ joystick_effects f rinfo
                   (toLocaleTimeString (clock (S (ticks w))))
                   (clock (S (S (ticks w)))) |}).
Proof.
  intros P F V. rewrite on_message_touched.
  unfold try_catch, bind, JSON_parse. rewrite P. unfold ret.
  rewrite (handleJoystickData_sent _ _ _ _ F V). reflexivity.
Qed.

(** A joystick moved, but the socket refuses the sender's port: the error
    of the acknowledgment sends the message to the text handler, whose
    reply is refused as well. *)
Lemma on_message_shaped_refused msg rinfo w data f :
  JSON.parse (Buffer_toString msg) = Some data ->
  as_JoystickData data = Some f ->
  moved (JoystickData.left f) || moved (JoystickData.right f) = true ->
  valid_port (RemoteInfo.port rinfo) = false ->
  on_message msg rinfo w
  = (Ok tt,
     {| this := this (touched rinfo w);
        ticks := S (S (S (S (ticks w))));
        trace := trace w
                 ++ joystick_lines f rinfo
                      (toLocaleTimeString (clock (S (ticks w))))
                 ++ text_lines (Buffer_toString msg) rinfo
                      (toLocaleTimeString (clock (S (S (S (ticks w))))))
                 ++ [refused_line] |}).
Proof.
  intros P F Mv V. rewrite on_message_touched.
  unfold try_catch, bind, JSON_parse. rewrite P. unfold ret.
  rewrite (handleJoystickData_refused _ _ _ _ F Mv V).
  rewrite (handleTextMessage_refused _ _ _ V).
  unfold console_error, emit, refused_line. cbn [this ticks trace touched].
  now repeat rewrite <- app_assoc.
Qed.

Lemma on_message_not_json msg rinfo w :
  JSON.parse (Buffer_toString msg) = None ->
  valid_port (RemoteInfo.port rinfo) = true ->
  on_message msg rinfo w
  = (Ok tt,
     {| this := this (touched rinfo w);
        ticks := S (S (ticks w));
        trace := trace w ++ text_effects (Buffer_toString msg) rinfo
                   (toLocaleTimeString (clock (S (ticks w)))) |}).
Proof.
  intros P V. rewrite on_message_touched.
  unfold try_catch, bind, JSON_parse. rewrite P. unfold throw.
  rewrite (handleTextMessage_sent _ _ _ V). reflexivity.
Qed.

Lemma on_message_not_json_refused msg rinfo w :
  JSON.parse (Buffer_toString msg) = None ->
  valid_port (RemoteInfo.port rinfo) = false ->
  on_message msg rinfo w
  = (Ok tt,
     {| this := this (touched rinfo w);
        ticks := S (S (ticks w));
        trace := trace w
                 ++ text_lines (Buffer_toString msg) rinfo
                      (toLocaleTimeString (clock (S (ticks w))))
                 ++ [refused_line] |}).
Proof.
  intros P V. rewrite on_message_touched.
  unfold try_catch, bind, JSON_parse. rewrite P. unfold throw.
  rewrite (handleTextMessage_refused _ _ _ V).
  unfold console_error, emit, refused_line. cbn [this ticks trace touched].
  now repeat rewrite <- app_assoc.
Qed.

Lemma on_message_axis_missing msg rinfo w data :
  JSON.parse (Buffer_toString msg) = Some data ->
  axis_missing data (u "left") = true \/ axis_missing data (u "right") = true ->
  valid_port (RemoteInfo.port rinfo) = true ->
  on_message msg rinfo w
  = (Ok tt,
     {| this := this (touched rinfo w);
        ticks := S (S (S (ticks w)));
        trace := trace w ++ text_effects (Buffer_toString msg) rinfo
                   (toLocaleTimeString (clock (S (S (ticks w))))) |}).
Proof.
  intros P F V. rewrite on_message_touched.
  unfold try_catch, bind, JSON_parse. rewrite P. unfold ret.
  rewrite (handleJoystickData_axis_missing _ _ _ F).
  rewrite (handleTextMessage_sent _ _ _ V). reflexivity.
Qed.

Lemma on_message_axis_missing_refused msg rinfo w data :
  JSON.parse (Buffer_toString msg) = Some data ->
  axis_missing data (u "left") = true \/ axis_missing data (u "right") = true ->
  valid_port (RemoteInfo.port rinfo) = false ->
  on_message msg rinfo w
  = (Ok tt,
     {| this := this (touched rinfo w);
        ticks := S (S (S (ticks w)));
        trace := trace w
                 ++ text_lines (Buffer_toString msg) rinfo
                      (toLocaleTimeString (clock (S (S (ticks w)))))
                 ++ [refused_line] |}).
Proof.
  intros P F V. rewrite on_message_touched.
  unfold try_catch, bind, JSON_parse. rewrite P. unfold ret.
  rewrite (handleJoystickData_axis_missing _ _ _ F).
  rewrite (handleTextMessage_refused _ _ _ V).
  unfold console_error, emit, refused_line. cbn [this ticks trace touched].
  now repeat rewrite <- app_assoc.
Qed.

Lemma never_throws_on_message msg rinfo : never_throws (on_message msg rinfo).
Proof.
  unfold on_message, clients_set, console_error.
  auto 20 with statements.
Qed.

Lemma on_message_this msg rinfo w :
  this (snd (on_message msg rinfo w)) = this (touched rinfo w).
Proof.
  rewrite on_message_touched.
  assert (K : keeps_this
    (try_catch
      (try_catch
         (bind (JSON_parse (Buffer_toString msg))
            (fun data => handleJoystickData data rinfo))
         (fun _ => handleTextMessage (Buffer_toString msg) rinfo))
      (fun err => console_error (u "Error processing message: " ++ describe err)))).
  { assert (keeps_this (JSON_parse (Buffer_toString msg))).
    { unfold JSON_parse. destruct (JSON.parse _); auto with statements. }
    unfold console_error.
    auto 10 using keeps_this_handleJoystickData, keeps_this_handleTextMessage
      with statements. }
  apply K.
Qed.

Lemma delete_app_head (kept rest : Map.t Z) k v :
  ~ In k (Map.keys kept) ->
  Map.delete k (kept ++ (k, v) :: rest) = kept ++ rest.
Proof.
  induction kept as [|[k' v'] kept IH]; simpl; intros N.
  - now rewrite eqb_refl.
  - destruct (eqb k' k) eqn:E.
    + apply eqb_eq in E. tauto.
    + rewrite IH; tauto.
Qed.

Lemma get_filter (p : jsstring * Z -> bool) (m : Map.t Z) k :
  NoDup (Map.keys m) ->
  Map.get k (filter p m)
  = match Map.get k m with
    | Some v => if p (k, v) then Some v else None
    | None => None
    end.
Proof.
  induction m as [|[k' v'] m IH]; simpl; intros H; [reflexivity|].
  inversion H as [|? ? Hn Hd]; subst.
  destruct (eqb k' k) eqn:E.
  - apply eqb_eq in E. subst k'.
    destruct (p (k, v')); simpl.
    + now rewrite eqb_refl.
    + rewrite IH by exact Hd.
      apply get_none_keys in Hn. now rewrite Hn.
  - destruct (p (k', v')); simpl; [rewrite E|]; now apply IH.
Qed.

Lemma keys_filter_incl (p : jsstring * Z -> bool) (m : Map.t Z) :
  incl (Map.keys (filter p m)) (Map.keys m).
Proof.
  intros k H. apply in_map_iff in H as ([k' v] & <- & H).
  apply filter_In in H as [H _]. now apply (in_map fst) in H.
Qed.

Lemma NoDup_keys_filter (p : jsstring * Z -> bool) (m : Map.t Z) :
  NoDup (Map.keys m) -> NoDup (Map.keys (filter p m)).
Proof.
  induction m as [|[k v] m IH]; simpl; intros H; [constructor|].
  inversion H as [|? ? Hn Hd]; subst.
  destruct (p (k, v)); simpl; [|now apply IH].
  constructor; [|now apply IH].
  intros Hin. apply Hn. now apply (keys_filter_incl p m).
Qed.

(** The loop of [cleanupClients], started on the entries [rest] when the
    registry is [kept ++ rest]. *)
Lemma cleanup_loop now (rest : list (jsstring * Z)) :
  forall (kept : Map.t Z) w,
    clients (this w) = kept ++ rest ->
    NoDup (Map.keys (kept ++ rest)) ->
    let body := fun '(clientId, lastSeen) =>
      if now - lastSeen >? timeout then
        bind (console_log (electric_plug ++ u " Client disconnected: "
                           ++ clientId))
          (fun _ => clients_delete clientId)
      else ret tt in
    let r := for_each rest body w in
    fst r = Ok tt /\
    clients (this (snd r)) = kept ++ filter (fresh now) rest /\
    port (this (snd r)) = port (this w) /\
    ticks (snd r) = ticks w.
Proof.
  induction rest as [|[k ls] rest IH]; intros kept w C N body r.
  - subst r. simpl. repeat split. exact C.
  - subst r body. cbn [for_each]. unfold bind at 1.
    unfold fresh at 1. cbn [snd filter].
    destruct (now - ls >? timeout) eqn:S.
    + run_statement. cbn [negb].
      assert (Nk : ~ In k (Map.keys kept)).
      { unfold Map.keys in *. rewrite map_app in N.
        apply NoDup_remove_2 in N. intros Hk. apply N, in_or_app. now left. }
      rewrite C, delete_app_head by exact Nk.
      match goal with
      | |- context [for_each rest ?b ?w0] =>
          destruct (IH kept w0) as (R1 & R2 & R3 & R4)
      end.
      * reflexivity.
      * unfold Map.keys in *. rewrite map_app in *.
        now apply NoDup_remove_1 in N.
      * cbn [this clients port ticks] in *. auto.
    + run_statement. cbn [negb].
      destruct (IH (kept ++ [(k, ls)]) w) as (R1 & R2 & R3 & R4).
      * rewrite C, <- app_assoc. reflexivity.
      * now rewrite <- app_assoc.
      * rewrite <- app_assoc in R2. auto.
Qed.

Lemma cleanupClients_spec w :
  registry_ok w ->
  let w' := snd (cleanupClients w) in
  fst (cleanupClients w) = Ok tt /\
  clients (this w') = filter (fresh (clock (ticks w))) (clients (this w)) /\
  port (this w') = port (this w) /\
  ticks w' = S (ticks w).
Proof.
  intros N. unfold cleanupClients. run_statement. unfold Map.entries.
  match goal with
  | |- context [for_each _ _ ?w0] =>
      destruct (cleanup_loop (clock (ticks w)) (clients (this w)) [] w0)
        as (R1 & R2 & R3 & R4)
  end; try reflexivity; try exact N.
  auto.
Qed.

Lemma stats_loop (entries : list (jsstring * Z)) :
  forall w,
    for_each entries (fun '(clientId, lastSeen) =>
      bind Date_now (fun now =>
        let secondsAgo := (now - lastSeen) / 1000 in
        console_log (u "   " ++ clientId ++ u " - Last seen: "
                     ++ of_Z secondsAgo ++ u "s ago"))) w
    = (Ok tt, {| this := this w;
                 ticks := (ticks w + length entries)%nat;
                 trace := trace w ++ stats_lines (ticks w) entries |}).
Proof.
  induction entries as [|[k ls] rest IH]; intros w.
  - simpl. rewrite app_nil_r, Nat.add_0_r. now destruct w.
  - cbn [for_each]. unfold bind at 1. run_statement.
    rewrite IH. cbn [this ticks trace stats_lines length].
    rewrite <- app_assoc, Nat.add_succ_r. reflexivity.
Qed.

Lemma getStats_eq w :
  getStats w
  = (Ok tt, {| this := this w;
               ticks := (if (0 <? Map.size (clients (this w)))%nat
                         then ticks w + Map.size (clients (this w))
                         else ticks w)%nat;
               trace := trace w ++ stats_report w |}).
Proof.
  unfold getStats, stats_report. run_statement.
  destruct (0 <? Map.size (clients (this w)))%nat.
  - run_statement. rewrite stats_loop. cbn [this ticks trace clients].
    repeat rewrite <- app_assoc. reflexivity.
  - run_statement. repeat rewrite <- app_assoc. reflexivity.
Qed.

Lemma sendResponse_callback_eq err w :
  fst (sendResponse_callback err w) = Ok tt /\
  this (snd (sendResponse_callback err w)) = this w.
Proof. destruct err; split; reflexivity. Qed.

Lemma dispatch_ok e w :
  registry_ok w ->
  fst (dispatch e w) = Ok tt /\ registry_ok (snd (dispatch e w)).
Proof.
  intros N. destruct e as [msg rinfo| | |err]; simpl.
  - split.
    + destruct (never_throws_on_message msg rinfo w) as [[] H]. exact H.
    + unfold registry_ok. rewrite on_message_this. simpl.
      now apply NoDup_set.
  - destruct (cleanupClients_spec w N) as (R1 & R2 & _). split; [exact R1|].
    unfold registry_ok. rewrite R2. now apply NoDup_keys_filter.
  - rewrite getStats_eq. split; [reflexivity | exact N].
  - destruct (sendResponse_callback_eq err w) as [R1 R2]. split; [exact R1|].
    unfold registry_ok. now rewrite R2.
Qed.

Lemma run_ok events :
  forall w, registry_ok w ->
    fst (run events w) = Ok tt /\ registry_ok (snd (run events w)).
Proof.
  induction events as [|e events IH]; intros w N.
  - now split.
  - cbn [run]. unfold bind.
    destruct (dispatch_ok e w N) as [R1 R2].
    destruct (dispatch e w) as [[[]|x] w1]; simpl in *; [|discriminate].
    now apply IH.
Qed.

Lemma run_app events1 events2 w :
  registry_ok w ->
  run (events1 ++ events2) w = run events2 (snd (run events1 w)).
Proof.
  revert w. induction events1 as [|e events1 IH]; intros w N.
  - reflexivity.
  - cbn [run app]. unfold bind.
    destruct (dispatch_ok e w N) as [R1 R2].
    destruct (dispatch e w) as [[[]|x] w1]; simpl in *; [|discriminate].
    now apply IH.
Qed.

Lemma registry_ok_new p : registry_ok (UDPServer_new p).
Proof. constructor. Qed.

Lemma sends_joystick_lines f rinfo timestamp :
  sends (joystick_lines f rinfo timestamp) = [].
Proof.
  unfold joystick_lines.
  now destruct (moved (JoystickData.left f)), (moved (JoystickData.right f)).
Qed.

Lemma errors_joystick_lines f rinfo timestamp :
  errors (joystick_lines f rinfo timestamp) = [].
Proof.
  unfold joystick_lines.
  now destruct (moved (JoystickData.left f)), (moved (JoystickData.right f)).
Qed.

Lemma sends_joystick_effects f rinfo timestamp now :
  moved (JoystickData.left f) = true \/ moved (JoystickData.right f) = true ->
  sends (joystick_effects f rinfo timestamp now)
  = [(stringify_ack now, RemoteInfo.port rinfo, RemoteInfo.address rinfo)].
Proof.
  intros Mv. unfold joystick_effects.
  replace (moved (JoystickData.left f) || moved (JoystickData.right f))
    with true by (destruct Mv as [-> | ->]; now rewrite ?orb_true_r).
  now rewrite sends_app, sends_joystick_lines.
Qed.





Lemma never_throws_cleanupClients : never_throws cleanupClients.
Proof.
  unfold cleanupClients. apply never_throws_bind; [auto with statements|].
  intros now. apply never_throws_bind; [auto with statements|].
  intros m. apply never_throws_for_each. intros [clientId lastSeen].
  unfold console_log, clients_delete. auto 10 with statements.
Qed.

Lemma never_throws_dispatch e : never_throws (dispatch e).
Proof.
  destruct e as [msg rinfo| | |err]; simpl.
  - apply never_throws_on_message.
  - apply never_throws_cleanupClients.
  - intros w. rewrite getStats_eq. now exists tt.
  - intros w. exists tt. apply sendResponse_callback_eq.
Qed.

Lemma never_throws_run events : never_throws (run events).
Proof.
  induction events as [|e events IH]; simpl.
  - apply never_throws_ret.
  - apply never_throws_bind; [apply never_throws_dispatch | auto].
Qed.

Lemma run_cons e events w :
  run (e :: events) w = run events (snd (dispatch e w)).
Proof.
  cbn [run]. unfold bind.
  destruct (never_throws_dispatch e w) as [[] H].
  destruct (dispatch e w) as [[[]|x] w1]; simpl in *; [reflexivity|discriminate].
Qed.

Lemma sweep_entry w id t0 :
  registry_ok w ->
  Map.get id (clients (this w)) = Some t0 ->
  let now := clock (ticks w) in
  let w' := snd (cleanupClients w) in
  registry_ok w' /\
  Map.get id (clients (this w'))
  = if now - t0 >? timeout then None else Some t0.
Proof.
  intros N G now w'. subst w'.
  destruct (cleanupClients_spec w N) as (_ & C & _). split.
  - unfold registry_ok. rewrite C. now apply NoDup_keys_filter.
  - rewrite C, get_filter by exact N. rewrite G. unfold fresh. cbn [snd].
    fold now. now destruct (now - t0 >? timeout).
Qed.

Lemma ticks_grow_ret {A} (a : A) : ticks_grow (ret a).
Proof. intros w. apply le_n. Qed.

Lemma ticks_grow_throw {A} (e : exn) : ticks_grow (@throw A e).
Proof. intros w. apply le_n. Qed.

Lemma ticks_grow_lift {A} (r : result A) : ticks_grow (lift r).
Proof. intros w. apply le_n. Qed.

Lemma ticks_grow_emit (e : effect) : ticks_grow (emit e).
Proof. intros w. apply le_n. Qed.

Lemma ticks_grow_Date_now : ticks_grow Date_now.
Proof. intros w. simpl. lia. Qed.

Lemma ticks_grow_bind {A B} (c : M A) (k : A -> M B) :
  ticks_grow c -> (forall a, ticks_grow (k a)) -> ticks_grow (bind c k).
Proof.
  intros Hc Hk w. unfold bind. specialize (Hc w).
  destruct (c w) as [[a|e] w1]; simpl in *; [|exact Hc].
  specialize (Hk a w1). lia.
Qed.

Lemma ticks_grow_try_catch {A} (body : M A) (handler : exn -> M A) :
  ticks_grow body -> (forall e, ticks_grow (handler e)) ->
  ticks_grow (try_catch body handler).
Proof.
  intros Hb Hh w. unfold try_catch. specialize (Hb w).
  destruct (body w) as [[a|e] w1]; simpl in *; [exact Hb|].
  specialize (Hh e w1). lia.
Qed.

Lemma ticks_grow_if {A} (b : bool) (c1 c2 : M A) :
  ticks_grow c1 -> ticks_grow c2 -> ticks_grow (if b then c1 else c2).
Proof. now destruct b. Qed.

Lemma ticks_grow_on_message msg rinfo w :
  (S (ticks w) <= ticks (snd (on_message msg rinfo w)))%nat.
Proof.
  rewrite on_message_touched.
  assert (G : ticks_grow
    (try_catch
      (try_catch
         (bind (JSON_parse (Buffer_toString msg))
            (fun data => handleJoystickData data rinfo))
         (fun _ => handleTextMessage (Buffer_toString msg) rinfo))
      (fun err => console_error (u "Error processing message: " ++ describe err)))).
  { assert (ticks_grow (JSON_parse (Buffer_toString msg))).
    { unfold JSON_parse. destruct (JSON.parse _);
        [apply ticks_grow_ret | apply ticks_grow_throw]. }
    unfold handleJoystickData, handleTextMessage, log_joystick,
      new_Date_toLocaleTimeString, sendResponse, console_log, console_error.
    auto 30 using ticks_grow_ret, ticks_grow_throw, ticks_grow_lift,
      ticks_grow_emit, ticks_grow_Date_now, ticks_grow_bind,
      ticks_grow_try_catch, ticks_grow_if. }
  exact (G (touched rinfo w)).
Qed.

Lemma ticks_grow_dispatch e : ticks_grow (dispatch e).
Proof.
  intros w. destruct e as [msg rinfo| | |err]; simpl.
  - pose proof (ticks_grow_on_message msg rinfo w). lia.
  - unfold cleanupClients. run_statement. unfold Map.entries.
    match goal with
    | |- context [for_each ?es ?b ?w0] =>
        assert (G : ticks (snd (for_each es b w0)) = ticks w0)
    end.
    { generalize (clients (this w)) at 1.
      match goal with |- forall t, ticks (snd (for_each t ?b ?w0)) = _ =>
        generalize w0 end.
      intros w0 es. revert w0.
      induction es as [|[k ls] es IH]; intros w0; [reflexivity|].
      cbn [for_each]. unfold bind at 1.
      destruct (clock (ticks w) - ls >? timeout); run_statement;
        rewrite IH; reflexivity. }
    rewrite G. simpl. lia.
  - rewrite getStats_eq. simpl.
    destruct (0 <? Map.size (clients (this w)))%nat; lia.
  - destruct err; simpl; lia.
Qed.

Lemma ticks_grow_run events : ticks_grow (run events).
Proof.
  induction events as [|e events IH]; intros w.
  - apply le_n.
  - rewrite run_cons. pose proof (ticks_grow_dispatch e w).
    specialize (IH (snd (dispatch e w))). lia.
Qed.

(** A peer stays in the registry through any events during which every
    reading of the clock lies between [lo], at or before its last-seen
    time, and [lo + timeout]. *)
Lemma peer_survives id lo (events : list event) :
  forall w ls,
    registry_ok w ->
    Map.get id (clients (this w)) = Some ls -> lo <= ls ->
    (forall n, (ticks w <= n < ticks (snd (run events w)))%nat ->
       lo <= clock n <= lo + timeout) ->
    exists ls', Map.get id (clients (this (snd (run events w)))) = Some ls'
                /\ lo <= ls'.
Proof.
  induction events as [|e events IH]; intros w ls N G L Win.
  - exists ls. now split.
  - rewrite run_cons in *.
    pose proof (ticks_grow_dispatch e w) as T1.
    pose proof (ticks_grow_run events (snd (dispatch e w))) as T2.
    destruct (dispatch_ok e w N) as [_ N1].
    assert (Step : exists ls1,
              Map.get id (clients (this (snd (dispatch e w)))) = Some ls1
              /\ lo <= ls1).
    { destruct e as [msg rinfo| | |err]; cbn [dispatch] in *.
      - pose proof (ticks_grow_on_message msg rinfo w) as T3.
        rewrite on_message_this. cbn [touched this clients].
        destruct (eqb (address_port rinfo) id) eqn:E.
        + apply eqb_eq in E. rewrite E, get_set_same.
          eexists. split; [reflexivity|]. apply Win. lia.
        + apply eqb_neq in E. rewrite (get_set_other _ _ _ _ E). eauto.
      - destruct (sweep_entry w id ls N G) as [_ G1].
        destruct (cleanupClients_spec w N) as (_ & _ & _ & T3).
        rewrite G1.
        destruct (clock (ticks w) - ls >? timeout) eqn:S; [|eauto].
        apply Z.gtb_lt in S.
        assert (lo <= clock (ticks w) <= lo + timeout) by (apply Win; lia).
        lia.
      - rewrite getStats_eq. cbn [snd this]. eauto.
      - destruct (sendResponse_callback_eq err w) as [_ ->]. eauto. }
    destruct Step as (ls1 & G1 & L1).
    apply (IH _ ls1 N1 G1 L1). intros n Hn. apply Win. lia.
Qed.

Lemma axis_missing_not_shaped data :
  axis_missing data (u "left") = true \/ axis_missing data (u "right") = true ->
  as_JoystickData data = None.
Proof.
  assert (A : forall v, match v with JUndefined | JNull => True | _ => False end ->
                        as_axis v = None).
  { intros [] H; try contradiction; reflexivity. }
  unfold axis_missing, as_JoystickData.
  intros [H|H].
  - destruct (Get data (u "left")) as [l|]; [|reflexivity].
    destruct (Get data (u "right")) as [r|]; [|reflexivity].
    rewrite (A l); [reflexivity|]. destruct l; try discriminate; exact I.
  - destruct (Get data (u "left")) as [l|]; [|reflexivity].
    destruct (Get data (u "right")) as [r|]; [|reflexivity].
    rewrite (A r); [now destruct (as_axis l)|].
    destruct r; try discriminate; exact I.
Qed.

End ServerFacts.

(* ================================================================== *)
(** * The properties of the specification *)
(* ================================================================== *)

Section Claims.
Context {rt : Runtime}.

(** C1, amended.  A datagram whose text is JSON of the [JoystickData]
    shape, with the distance of at least one axis parsing to a number above
    0.1, that comes from a port the socket can send to (1 to 65535), is
    answered by exactly one datagram, sent to the port and address it came
    from: the text [{"status":"received","timestamp":t}], where [t] is the
    reading of the clock taken when the acknowledgment is built, in integer
    milliseconds, two readings after the one recorded for the sender on
    receipt.  On a clock that never steps back, [t] is not before the time
    of receipt. *)
Theorem joystick_message_acknowledged msg rinfo w data f :
  JSON.parse (Buffer_toString msg) = Some data ->
  as_JoystickData data = Some f ->
  moved (JoystickData.left f) = true \/ moved (JoystickData.right f) = true ->
  valid_port (RemoteInfo.port rinfo) = true ->
  let received := clock (ticks w) in
  let timestamp := clock (S (S (ticks w))) in
  let w' := snd (on_message msg rinfo w) in
  fst (on_message msg rinfo w) = Ok tt /\
  Map.get (address_port rinfo) (clients (this w')) = Some received /\
  (exists new,
     trace w' = trace w ++ new /\
     sends new
     = [(q "{'status':'received','timestamp':" ++ of_Z timestamp ++ u "}",
         RemoteInfo.port rinfo, RemoteInfo.address rinfo)]) /\
  ((forall n, clock n <= clock (S n)) -> received <= timestamp).
Proof.
  intros P F Mv V received timestamp w'. subst w'.
  rewrite (on_message_shaped msg rinfo w data f P F (fun _ => V)).
  cbn [fst snd this trace].
  split; [reflexivity|]. split; [|split].
  - cbn [touched this clients]. apply get_set_same.
  - eexists. split; [reflexivity|]. now apply sends_joystick_effects.
  - intros Mono. subst received timestamp.
    apply Z.le_trans with (clock (S (ticks w))); apply Mono.
Qed.

(** C2, amended.  A datagram whose text is not JSON, or is JSON whose value
    lacks an axis ([left] or [right] absent or null), is not a joystick
    message and is handled as a text message.  When it comes from a port
    the socket can send to (1 to 65535), the listener returns normally, logs
    the text message and sends the sender exactly one datagram,
    [Server received: "<text>" at <time>], that holds the text as it was
    received. *)
Theorem unparsed_message_echoed msg rinfo w :
  let message := Buffer_toString msg in
  let w' := snd (on_message msg rinfo w) in
  JSON.parse message = None \/
  (exists data, JSON.parse message = Some data /\
     (axis_missing data (u "left") = true \/
      axis_missing data (u "right") = true)) ->
  valid_port (RemoteInfo.port rinfo) = true ->
  is_JoystickData message = false /\
  fst (on_message msg rinfo w) = Ok tt /\
  exists timestamp,
    trace w' = trace w ++ text_effects message rinfo timestamp /\
    sends (text_effects message rinfo timestamp)
    = [(u "Server received: " ++ [dquote] ++ message ++ [dquote] ++ u " at "
        ++ timestamp, RemoteInfo.port rinfo, RemoteInfo.address rinfo)].
Proof.
  intros message w' [P | (data & P & Miss)] V; subst w';
    unfold is_JoystickData.
  - fold message. rewrite P. split; [reflexivity|].
    rewrite (on_message_not_json msg rinfo w P V). split; [reflexivity|].
    eexists. split; reflexivity.
  - fold message. rewrite P, (axis_missing_not_shaped data Miss).
    split; [reflexivity|].
    rewrite (on_message_axis_missing msg rinfo w data P Miss V).
    split; [reflexivity|]. eexists. split; reflexivity.
Qed.

(** C3. A datagram whose text is JSON of the [JoystickData] shape with both
    distances parsing to numbers at most 0.1 changes nothing but the
    sender's entry in the registry: nothing is sent, nothing is logged. *)
Theorem idle_joystick_message_ignored msg rinfo w data f :
  JSON.parse (Buffer_toString msg) = Some data ->
  as_JoystickData data = Some f ->
  le (parseFloat (JoystickData.distance (JoystickData.left f))) threshold = true ->
  le (parseFloat (JoystickData.distance (JoystickData.right f))) threshold = true ->
  on_message msg rinfo w
  = (Ok tt,
     {| this := {| port := port (this w);
                   clients := Map.set (address_port rinfo) (clock (ticks w))
                                (clients (this w)) |};
        ticks := S (S (ticks w));
        trace := trace w |}).
Proof.
  intros P F L R.
  assert (ML : moved (JoystickData.left f) = false) by now apply le_not_gt.
  assert (MR : moved (JoystickData.right f) = false) by now apply le_not_gt.
  rewrite (on_message_shaped msg rinfo w data f P F)
    by (rewrite ML, MR; discriminate).
  unfold joystick_effects. rewrite ML, MR. cbn [orb].
  now rewrite app_nil_r.
Qed.

(** C4. Round trip through the registry, times in milliseconds: the timeout
    is 60000, twice the period of the sweep timer.  Once a datagram from a
    peer is received at clock reading [t0], the registry lists the peer with
    that time.  As long as the registry holds that entry, a sweep that reads
    the clock at [now] keeps it when [now <= t0 + timeout] (so at
    [t0 + 29000]) and removes it when [now > t0 + timeout]; the registry
    after a removing sweep has no entry for the peer, and the statistics
    then enumerate none. *)
Theorem registry_round_trip msg rinfo w :
  registry_ok w ->
  let id := address_port rinfo in
  let t0 := clock (ticks w) in
  let w1 := snd (on_message msg rinfo w) in
  timeout = 60000 /\ timeout = 2 * cleanup_period /\
  (registry_ok w1 /\ In (id, t0) (Map.entries (clients (this w1)))) /\
  (forall later : list event,
     (forall n, (ticks w1 <= n < ticks (snd (run later w1)))%nat ->
        t0 <= clock n <= t0 + timeout) ->
     In id (Map.keys (clients (this (snd (run later w1)))))) /\
  forall w2,
    registry_ok w2 ->
    Map.get id (clients (this w2)) = Some t0 ->
    let now := clock (ticks w2) in
    let w3 := snd (cleanupClients w2) in
    registry_ok w3 /\
    (now <= t0 + timeout ->
     In (id, t0) (Map.entries (clients (this w3)))) /\
    (now = t0 + 29000 ->
     In (id, t0) (Map.entries (clients (this w3)))) /\
    (t0 + timeout < now ->
     Map.get id (clients (this w3)) = None /\
     ~ In id (Map.keys (clients (this w3))) /\
     trace (snd (getStats w3)) = trace w3 ++ stats_report w3).
Proof.
  intros N id t0 w1. subst w1.
  split; [reflexivity|]. split; [reflexivity|]. split; [|split].
  - unfold registry_ok. rewrite on_message_this. cbn [touched this clients].
    split; [now apply NoDup_set|]. apply get_in_entries, get_set_same.
  - intros later Win.
    destruct (peer_survives id t0 later (snd (on_message msg rinfo w)) t0)
      as (ls & G & _); try exact Win; try apply Z.le_refl.
    + unfold registry_ok. rewrite on_message_this. cbn [touched this clients].
      now apply NoDup_set.
    + rewrite on_message_this. cbn [touched this clients]. apply get_set_same.
    + apply has_in_keys. unfold Map.has. now rewrite G.
  - intros w2 N2 G now w3.
    destruct (sweep_entry w2 id t0 N2 G) as [N3 G3].
    fold now w3 in N3, G3. split; [exact N3|].
    assert (Keep : now <= t0 + timeout ->
              In (id, t0) (Map.entries (clients (this w3)))).
    { intros L. apply get_in_entries. rewrite G3.
      destruct (now - t0 >? timeout) eqn:S; [|reflexivity].
      apply Z.gtb_lt in S. lia. }
    split; [exact Keep|]. split.
    + intros E. apply Keep. unfold timeout. lia.
    + intros L.
      assert (G3' : Map.get id (clients (this w3)) = None).
      { rewrite G3. destruct (now - t0 >? timeout) eqn:S; [reflexivity|].
        rewrite Z.gtb_ltb, Z.ltb_ge in S. lia. }
      split; [exact G3'|]. split; [now apply get_none_keys|].
      now rewrite getStats_eq.
Qed.

(** C5. Recording a sender is an upsert.  After any history of events, the
    next datagram leaves a registry without duplicate keys; its size grows
    by one if the sender was not in it and stays the same if it was, in
    which case the keys are the same, in the same order; the sender's entry
    holds the clock reading taken on receipt and no other entry changes. *)
Theorem touch_is_upsert (history : list event) (p : Z) msg rinfo :
  let w := snd (run history (UDPServer_new p)) in
  let m := clients (this w) in
  let id := address_port rinfo in
  let m' := clients (this (snd (run (history ++ [Message msg rinfo])
                                 (UDPServer_new p)))) in
  NoDup (Map.keys m) /\
  NoDup (Map.keys m') /\
  Map.size m' = (if Map.has id m then Map.size m else S (Map.size m)) /\
  (Map.has id m = true -> Map.keys m' = Map.keys m) /\
  Map.get id m' = Some (clock (ticks w)) /\
  (forall k, k <> id -> Map.get k m' = Map.get k m).
Proof.
  intros w m id m'. subst m'.
  rewrite run_app by apply registry_ok_new. fold w.
  rewrite run_cons. cbn [run ret snd dispatch].
  rewrite on_message_this. cbn [touched this clients]. fold m id.
  destruct (run_ok history (UDPServer_new p) (registry_ok_new p)) as [_ N].
  fold w in N. unfold registry_ok in N. fold m in N.
  repeat split.
  - exact N.
  - now apply NoDup_set.
  - apply size_set.
  - apply keys_set_present.
  - apply get_set_same.
  - intros k Hk. apply get_set_other. intros E. apply Hk. now rewrite <- E.
Qed.


(** C7. Whatever a datagram holds, its listener returns normally: no error
    raised while it is handled escapes.  The event loop therefore goes on to
    every later event, and the registry after the listener is the registry
    as the touch for that datagram left it. *)
Theorem datagram_errors_contained msg rinfo w (later : list event) :
  let w' := snd (on_message msg rinfo w) in
  fst (on_message msg rinfo w) = Ok tt /\
  clients (this w')
  = Map.set (address_port rinfo) (clock (ticks w)) (clients (this w)) /\
  run (Message msg rinfo :: later) w = run later w' /\
  fst (run (Message msg rinfo :: later) w) = Ok tt.
Proof.
  intros w'. subst w'. repeat split.
  - destruct (never_throws_on_message msg rinfo w) as [[] H]. exact H.
  - now rewrite on_message_this.
  - exact (run_cons (Message msg rinfo) later w).
  - destruct (never_throws_run (Message msg rinfo :: later) w) as [[] H].
    exact H.
Qed.

(** C8, amended.  When the text of a datagram is JSON whose value lacks an
    axis ([left] or [right] absent or null), [handleJoystickData] throws a
    TypeError before it logs or sends anything; the inner [catch] takes it
    and answers as for a text message.  From a port the socket can send to
    (1 to 65535), exactly one datagram goes back to the sender, the echo of
    the text, and nothing is written to [console.error].  From any other
    port the socket refuses the echo: nothing is sent, and the outer [catch]
    writes the error of the socket to [console.error].  Either way the
    listener returns normally and the later events are handled. *)
Theorem shape_mismatch_echoed msg rinfo w data (later : list event) :
  let message := Buffer_toString msg in
  let w' := snd (on_message msg rinfo w) in
  JSON.parse message = Some data ->
  axis_missing data (u "left") = true \/ axis_missing data (u "right") = true ->
  handleJoystickData data rinfo (touched rinfo w)
  = (Throw ETypeError,
     {| this := this (touched rinfo w); ticks := S (S (ticks w));
        trace := trace w |}) /\
  fst (on_message msg rinfo w) = Ok tt /\
  (valid_port (RemoteInfo.port rinfo) = true ->
   exists new,
     trace w' = trace w ++ new /\
     sends new
     = [(echo message (toLocaleTimeString (clock (S (S (ticks w))))),
         RemoteInfo.port rinfo, RemoteInfo.address rinfo)] /\
     errors new = []) /\
  (valid_port (RemoteInfo.port rinfo) = false ->
   exists new,
     trace w' = trace w ++ new /\
     sends new = [] /\
     errors new = [u "Error processing message: RangeError"]) /\
  run (Message msg rinfo :: later) w = run later w'.
Proof.
  intros message w' P Miss. subst w'.
  split; [exact (handleJoystickData_axis_missing data rinfo (touched rinfo w) Miss)|].
  split; [|split; [|split]].
  - destruct (never_throws_on_message msg rinfo w) as [[] H]. exact H.
  - intros V. rewrite (on_message_axis_missing msg rinfo w data P Miss V).
    eexists. split; [reflexivity|]. split; reflexivity.
  - intros V.
    rewrite (on_message_axis_missing_refused msg rinfo w data P Miss V).
    eexists. split; [reflexivity|]. split; reflexivity.
  - exact (run_cons (Message msg rinfo) later w).
Qed.

(** C9. The listener first records the sender with the clock reading taken
    on receipt, and only then classifies and handles the datagram, in the
    world so touched.  That entry is the only change the listener makes to
    the registry, whatever happens while the datagram is handled: every
    other entry, and the port, stay as they were. *)
Theorem sender_touched_before_handling msg rinfo w :
  let id := address_port rinfo in
  let received := clock (ticks w) in
  let w' := snd (on_message msg rinfo w) in
  on_message msg rinfo w
  = try_catch
      (try_catch
         (bind (JSON_parse (Buffer_toString msg))
            (fun data => handleJoystickData data rinfo))
         (fun _ => handleTextMessage (Buffer_toString msg) rinfo))
      (fun err => console_error (u "Error processing message: " ++ describe err))
      (touched rinfo w) /\
  clients (this (touched rinfo w)) = Map.set id received (clients (this w)) /\
  clients (this w') = Map.set id received (clients (this w)) /\
  Map.get id (clients (this w')) = Some received /\
  (forall k, k <> id ->
     Map.get k (clients (this w')) = Map.get k (clients (this w))) /\
  port (this w') = port (this w).
Proof.
  intros id received w'. subst w'.
  split; [apply on_message_touched|]. split; [reflexivity|].
  rewrite on_message_this. cbn [touched this clients port].
  repeat split.
  - apply get_set_same.
  - intros k N. apply get_set_other. intros E. apply N. now rewrite <- E.
Qed.

(** C10. [getStats] only reads: it returns normally, writes its report and
    leaves the port and the registry, entries and last-seen times alike, as
    they were. *)
Theorem stats_leave_registry w :
  fst (getStats w) = Ok tt /\
  this (snd (getStats w)) = this w /\
  clients (this (snd (getStats w))) = clients (this w) /\
  trace (snd (getStats w)) = trace w ++ stats_report w.
Proof. rewrite getStats_eq. repeat split. Qed.

End Claims.

(* ================================================================== *)
(** * Instances on the sample runtime *)
(* ================================================================== *)

(** C1 as stated fails in two ways.  A joystick message with the left
    joystick moved that comes from source port 0 gets no acknowledgment: the
    socket refuses the port.  And when the system clock is set back after
    the receipt, the acknowledgment carries a time before the time of
    receipt, here by four and a half seconds. *)
Lemma acknowledgment_counterexample :
  as_JoystickData (value_of moving_left) = Some moving_left_frame /\
  moved (JoystickData.left moving_left_frame) = true /\
  sends (trace (snd (on_message (rt := sample_runtime) moving_left
                       unreachable_sender (UDPServer_new 8080)))) = [] /\
  (let w' := snd (on_message (rt := set_back_runtime) moving_left sample_sender
                    (UDPServer_new 8080)) in
   Map.get (u "192.168.1.20:50123") (clients (this w')) = Some 1700000005000 /\
   sends (trace w')
   = [(q "{'status':'received','timestamp':1700000000500}", 50123,
       u "192.168.1.20")] /\
   1700000000500 < 1700000005000).
Proof. repeat split; vm_compute; reflexivity. Qed.

(** C1, amended, on scenario 2: the left joystick moved. *)
Lemma joystick_message_acknowledged_witness :
  let w := UDPServer_new 8080 in
  let w' := snd (on_message (rt := sample_runtime) moving_left sample_sender w) in
  fst (on_message (rt := sample_runtime) moving_left sample_sender w) = Ok tt /\
  Map.get (u "192.168.1.20:50123") (clients (this w')) = Some 1700000000000 /\
  (exists new,
     trace w' = trace w ++ new /\
     sends new
     = [(q "{'status':'received','timestamp':1700000000500}", 50123,
         u "192.168.1.20")]) /\
  1700000000000 <= 1700000000500.
Proof.
  intros w w'.
  destruct (joystick_message_acknowledged (rt := sample_runtime) moving_left
              sample_sender w (value_of moving_left) moving_left_frame)
    as (A & B & C & D).
  - vm_compute. reflexivity.
  - vm_compute. reflexivity.
  - left. vm_compute. reflexivity.
  - vm_compute. reflexivity.
  - split; [exact A|]. split; [exact B|]. split; [exact C|].
    apply D. intros n.
    change (1700000000000 + 250 * Z.of_nat n
            <= 1700000000000 + 250 * Z.of_nat (S n)).
    lia.
Defined.

(** C2 as stated fails in two ways.  JSON with both axes but none of their
    fields is not a joystick message, yet it is not handled as text:
    nothing is sent.  And a text that is not JSON, coming from source port
    0, is handled as text but not answered: the socket refuses the port and
    the error is written to [console.error]. *)
Lemma text_fallback_counterexample :
  is_JoystickData (Buffer_toString (Runtime := sample_runtime) empty_axes) = false /\
  sends (trace (snd (on_message (rt := sample_runtime) empty_axes sample_sender
                       (UDPServer_new 8080)))) = [] /\
  JSON.parse (Buffer_toString (Runtime := sample_runtime) (u "hello")) = None /\
  sends (trace (snd (on_message (rt := sample_runtime) (u "hello")
                       unreachable_sender (UDPServer_new 8080)))) = [] /\
  errors (trace (snd (on_message (rt := sample_runtime) (u "hello")
                        unreachable_sender (UDPServer_new 8080))))
  = [u "Error processing message: RangeError"].
Proof. repeat split; vm_compute; reflexivity. Qed.

(** C2, amended, on JSON without a right axis. *)
Lemma unparsed_message_echoed_witness :
  let message := Buffer_toString (Runtime := sample_runtime) left_only in
  let w := UDPServer_new 8080 in
  let w' := snd (on_message (rt := sample_runtime) left_only sample_sender w) in
  is_JoystickData message = false /\
  fst (on_message (rt := sample_runtime) left_only sample_sender w) = Ok tt /\
  exists timestamp,
    trace w' = trace w ++ text_effects message sample_sender timestamp /\
    sends (text_effects message sample_sender timestamp)
    = [(u "Server received: " ++ [dquote] ++ message ++ [dquote] ++ u " at "
        ++ timestamp, 50123, u "192.168.1.20")].
Proof.
  apply (unparsed_message_echoed (rt := sample_runtime) left_only sample_sender
           (UDPServer_new 8080)).
  - right. eexists. split; [vm_compute; reflexivity|].
    right. vm_compute. reflexivity.
  - vm_compute. reflexivity.
Defined.

(** C3 on scenario 1: both joysticks centred. *)
Lemma idle_joystick_message_ignored_witness :
  on_message (rt := sample_runtime) centred sample_sender (UDPServer_new 8080)
  = (Ok tt,
     {| this := {| port := 8080;
                   clients := [(u "192.168.1.20:50123", 1700000000000)] |};
        ticks := 2;
        trace := [] |}).
Proof.
  eapply (idle_joystick_message_ignored (rt := sample_runtime) centred
            sample_sender (UDPServer_new 8080)).
  - vm_compute. reflexivity.
  - vm_compute. reflexivity.
  - vm_compute. reflexivity.
  - vm_compute. reflexivity.
Defined.

(** C4 on scenario 4: a peer seen at [t0]; the sweep whose clock reading is
    [t0 + 29000] keeps it, the one at [t0 + 61250] removes it. *)
Lemma registry_round_trip_witness :
  let w := UDPServer_new 8080 in
  let id := u "192.168.1.20:50123" in
  let t0 := 1700000000000 in
  let w1 := snd (on_message (rt := sample_runtime) centred sample_sender w) in
  In (id, t0) (Map.entries (clients (this w1))) /\
  (let w2 := {| this := this w1; ticks := 116; trace := [] |} in
   In (id, t0) (Map.entries (clients (this (snd (cleanupClients (rt := sample_runtime) w2)))))) /\
  (let w2 := {| this := this w1; ticks := 245; trace := [] |} in
   ~ In id (Map.keys (clients (this (snd (cleanupClients (rt := sample_runtime) w2)))))).
Proof.
  intros w id t0 w1.
  destruct (registry_round_trip (rt := sample_runtime) centred sample_sender w
              (registry_ok_new 8080))
    as (_ & _ & (N1 & I1) & _ & Sweep).
  split; [exact I1|]. split.
  - intros w2.
    destruct (Sweep w2) as (_ & _ & Keep & _).
    + exact N1.
    + vm_compute. reflexivity.
    + apply Keep. vm_compute. reflexivity.
  - intros w2.
    destruct (Sweep w2) as (_ & _ & _ & Drop).
    + exact N1.
    + vm_compute. reflexivity.
    + apply Drop. vm_compute. reflexivity.
Defined.



(** C8 as stated fails: JSON without the axes is answered, with the echo
    of its text. *)
Lemma shape_mismatch_counterexample :
  exists data,
    JSON.parse (Buffer_toString (Runtime := sample_runtime) foo_object) = Some data /\
    axis_missing data (u "left") = true /\
    sends (trace (snd (on_message (rt := sample_runtime) foo_object sample_sender
                         (UDPServer_new 8080))))
    = [(echo foo_object (u "1700000000500"), 50123, u "192.168.1.20")].
Proof. eexists. repeat split; vm_compute; reflexivity. Qed.

(** C8, amended, on the same datagram, followed by the statistics timer. *)
Lemma shape_mismatch_echoed_witness :
  let w := UDPServer_new 8080 in
  let w' := snd (on_message (rt := sample_runtime) foo_object sample_sender w) in
  handleJoystickData (rt := sample_runtime) (value_of foo_object) sample_sender
    (touched (rt := sample_runtime) sample_sender w)
  = (Throw ETypeError,
     {| this := this (touched (rt := sample_runtime) sample_sender w);
        ticks := 2; trace := [] |}) /\
  fst (on_message (rt := sample_runtime) foo_object sample_sender w) = Ok tt /\
  (exists new,
     trace w' = trace w ++ new /\
     sends new
     = [(echo foo_object (u "1700000000500"), 50123, u "192.168.1.20")] /\
     errors new = []) /\
  run (rt := sample_runtime) [Message foo_object sample_sender; StatsTimer] w
  = run (rt := sample_runtime) [StatsTimer] w'.
Proof.
  intros w w'.
  destruct (shape_mismatch_echoed (rt := sample_runtime) foo_object
              sample_sender w (value_of foo_object) [StatsTimer])
    as (A & B & C & _ & D).
  - vm_compute. reflexivity.
  - left. vm_compute. reflexivity.
  - split; [exact A|]. split; [exact B|]. split; [|exact D].
    apply C. vm_compute. reflexivity.
Defined.

(* ================================================================== *)
(** * Worked examples *)
(* ================================================================== *)

(** The literal [0.1] is the binary64 value 7205759403792794 * 2^-56. *)
Example threshold_value : threshold = Finite 7205759403792794 (-56).
Proof. vm_compute. reflexivity. Qed.

(** Decimal texts just above one tenth still round to the threshold, and
    are not above it; the next binary64 value is. *)
Example parseFloat_rounds :
  parseFloat (u "0.1000000000000000001") = threshold /\
  gt (parseFloat (u "0.1")) threshold = false /\
  gt (parseFloat (u "0.10000000000000002")) threshold = true.
Proof. repeat split; vm_compute; reflexivity. Qed.

(** [parseFloat] reads the longest numeric prefix and gives NaN when there
    is none. *)
Example parseFloat_prefix :
  parseFloat (u "  0.5abc") = parseFloat (u "0.5") /\
  parseFloat (u "fast") = NaN /\
  parseFloat [] = NaN /\
  parseFloat (u "-.5e1") = parseFloat (u "-5").
Proof. repeat split; vm_compute; reflexivity. Qed.

(** Texts that are not JSON. *)
Example not_json :
  JSON.parse [] = None /\
  JSON.parse (u "hello") = None /\
  JSON.parse (q "{'left':{'x':'1'") = None /\
  JSON.parse (u "01") = None /\
  JSON.parse (u "[1,]") = None.
Proof. repeat split; vm_compute; reflexivity. Qed.

(** The acknowledgment of a joystick message is JSON: an object with the
    properties [status] and [timestamp]. *)
Example ack_is_json :
  JSON.parse (stringify_ack 1700000000500)
  = Some (JObject [(u "status", JString (u "received"));
                   (u "timestamp",
                    JNumber (of_decimal false (u "1700000000500") 0))]).
Proof. vm_compute. reflexivity. Qed.

(** Scenario 1 of the specification: both joysticks centred, nothing sent. *)
Example scenario_1 :
  sends (trace (snd (on_message (rt := sample_runtime) centred sample_sender
                       (UDPServer_new 8080)))) = [].
Proof. vm_compute. reflexivity. Qed.

(** Scenario 2: the left joystick moved, one acknowledgment to the sender. *)
Example scenario_2 :
  sends (trace (snd (on_message (rt := sample_runtime) moving_left
                       sample_sender (UDPServer_new 8080))))
  = [(q "{'status':'received','timestamp':1700000000500}", 50123,
      u "192.168.1.20")].
Proof. vm_compute. reflexivity. Qed.

(** Scenario 3: plain text is echoed. *)
Example scenario_3 :
  sends (trace (snd (on_message (rt := sample_runtime) (u "hello")
                       sample_sender (UDPServer_new 8080))))
  = [(q "Server received: 'hello' at 1700000000250", 50123,
      u "192.168.1.20")].
Proof. vm_compute. reflexivity. Qed.

(** The empty datagram is echoed too. *)
Example empty_datagram :
  sends (trace (snd (on_message (rt := sample_runtime) [] sample_sender
                       (UDPServer_new 8080))))
  = [(q "Server received: '' at 1700000000250", 50123, u "192.168.1.20")].
Proof. vm_compute. reflexivity. Qed.

(** A moved joystick whose [x] is missing: the handler throws after the
    first lines of its report, and the text echo follows them. *)
Example moved_axis_without_x :
  let w' := snd (on_message (rt := sample_runtime)
                   (q "{'left':{'distance':'0.5'},'right':{}}")
                   sample_sender (UDPServer_new 8080)) in
  length (trace w') = 9%nat /\
  sends (trace w')
  = [(echo (q "{'left':{'distance':'0.5'},'right':{}}") (u "1700000000500"),
      50123, u "192.168.1.20")].
Proof. split; vm_compute; reflexivity. Qed.

(* ================================================================== *)
(** * Further properties of the code *)
(* ================================================================== *)

Lemma fresh_stale now entry : fresh now entry = negb (stale now entry).
Proof. reflexivity. Qed.

Lemma filter_filter_implied {A} (p r : A -> bool) (l : list A) :
  (forall x, p x = true -> r x = true) ->
  filter p (filter r l) = filter p l.
Proof.
  intros H. induction l as [|x l IH]; simpl; [reflexivity|].
  destruct (r x) eqn:R; simpl.
  - now rewrite IH.
  - destruct (p x) eqn:P; [|exact IH].
    apply H in P. congruence.
Qed.

Lemma filter_all {A} (p : A -> bool) (l : list A) :
  filter p l = l <-> forall x, In x l -> p x = true.
Proof.
  split.
  - intros E x Hx. rewrite <- E in Hx. now apply filter_In in Hx.
  - induction l as [|x l IH]; simpl; intros H; [reflexivity|].
    rewrite (H x) by now left. f_equal. apply IH. auto.
Qed.

Lemma filter_none {A} (p : A -> bool) (l : list A) :
  (forall x, In x l -> p x = false) -> filter p l = [].
Proof.
  induction l as [|x l IH]; simpl; intros H; [reflexivity|].
  rewrite (H x) by now left. apply IH. auto.
Qed.

Lemma span_digits_all s : Forall (fun c => is_digit c = true) (fst (span_digits s)).
Proof.
  induction s as [|c r IH]; simpl; [constructor|].
  destruct (is_digit c) eqn:D; [|constructor].
  destruct (span_digits r); simpl in *. now constructor.
Qed.

Lemma digits_value_nonneg ds :
  Forall (fun c => is_digit c = true) ds -> 0 <= digits_value ds.
Proof.
  unfold digits_value. assert (G : forall acc, 0 <= acc ->
    Forall (fun c => is_digit c = true) ds ->
    0 <= fold_left (fun acc c => 10 * acc + (c - 48)) ds acc).
  { induction ds as [|c ds IH]; intros acc A F; cbn [fold_left]; [exact A|].
    inversion F as [|? ? Hc Hd]; subst. apply IH; [|exact Hd].
    unfold is_digit in Hc. apply andb_true_iff in Hc as [L _].
    apply Z.leb_le in L. lia. }
  apply G. lia.
Qed.

Lemma not_positive_gt x : not_positive x -> gt x threshold = false.
Proof.
  replace threshold with (Finite 7205759403792794 (-56))
    by (vm_compute; reflexivity).
  destruct x as [|neg|m e]; cbn [gt not_positive];
    [reflexivity | now intros -> |].
  intros H. cbv zeta. apply Z.ltb_ge.
  assert (0 <= 2 ^ (e - Z.min e (-56))) by (apply Z.pow_nonneg; lia).
  assert (0 <= 2 ^ (-56 - Z.min e (-56))) by (apply Z.pow_nonneg; lia).
  assert (m * 2 ^ (e - Z.min e (-56)) <= 0) by nia.
  assert (0 <= 7205759403792794 * 2 ^ (-56 - Z.min e (-56))) by nia.
  lia.
Qed.

Lemma round_ratio_nonneg n d :
  0 <= n -> 0 <= d ->
  match round_ratio n d with
  | Finite m _ => 0 <= m
  | _ => True
  end.
Proof.
  intros Hn Hd. unfold round_ratio.
  set (e := Z.max (binade n d - 52) (-1074)).
  set (num := if 0 <=? e then n else n * 2 ^ (- e)).
  set (den := if 0 <=? e then d * 2 ^ e else d).
  assert (0 <= num).
  { subst num. destruct (0 <=? e); [exact Hn|].
    apply Z.mul_nonneg_nonneg; [exact Hn | apply Z.pow_nonneg; lia]. }
  assert (0 <= den).
  { subst den. destruct (0 <=? e); [|exact Hd].
    apply Z.mul_nonneg_nonneg; [exact Hd | apply Z.pow_nonneg; lia]. }
  assert (K : 0 <= num / den).
  { destruct (Z.eq_dec den 0) as [->|];
      [rewrite Z.div_0_r; lia | apply Z.div_pos; lia]. }
  set (m := if den <? 2 * (num mod den) then num / den + 1
            else if 2 * (num mod den) =? den
                 then (if Z.even (num / den) then num / den else num / den + 1)
                 else num / den).
  assert (0 <= m).
  { subst m. repeat match goal with |- context [if ?b then _ else _] =>
      destruct b end; lia. }
  unfold normalize. destruct (m =? 2 ^ 53).
  - destruct (971 <? e + 1); [exact I | lia].
  - destruct (971 <? e); [exact I | assumption].
Qed.
Lemma round_signed_minus n d :
  0 <= n -> 0 <= d -> not_positive (round_signed true n d).
Proof.
  intros Hn Hd. unfold round_signed. destruct (n =? 0); [simpl; lia|].
  pose proof (round_ratio_nonneg n d Hn Hd) as R.
  destruct (round_ratio n d); simpl; [exact I | reflexivity | lia].
Qed.

Lemma of_decimal_minus ds scale :
  Forall (fun c => is_digit c = true) ds ->
  not_positive (of_decimal true ds scale).
Proof.
  intros F. pose proof (digits_value_nonneg ds F). unfold of_decimal.
  destruct (0 <=? scale) eqn:S; apply round_signed_minus; try lia;
    try (apply Z.pow_nonneg; lia);
    try (apply Z.mul_nonneg_nonneg; [assumption | apply Z.pow_nonneg; lia]).
Qed.

(** A text that starts with a minus sign is read as a number that is not
    positive, or as NaN. *)
Lemma parseFloat_minus rest : not_positive (parseFloat (45 :: rest)).
Proof.
  unfold parseFloat.
  change (TrimStart (45 :: rest)) with (45 :: rest).
  change (take_sign true (45 :: rest)) with (true, rest). cbv beta iota.
  destruct (strip_prefix (u "Infinity") rest); [exact eq_refl|].
  pose proof (span_digits_all rest) as F1.
  destruct (span_digits rest) as [int_digits r1]. cbn [fst] in F1.
  assert (F2 : forall frac r2,
            match take_char 46 r1 with
            | Some r => span_digits r
            | None => ([], r1)
            end = (frac, r2) ->
            Forall (fun c => is_digit c = true) frac).
  { intros frac r2. destruct (take_char 46 r1) as [r|].
    - intros E. pose proof (span_digits_all r) as F. now rewrite E in F.
    - intros [= <- _]. constructor. }
  destruct (match take_char 46 r1 with Some r => _ | None => _ end)
    as [frac_digits r2].
  specialize (F2 _ _ eq_refl).
  assert (F : Forall (fun c => is_digit c = true) (int_digits ++ frac_digits))
    by (apply Forall_app; now split).
  destruct (int_digits ++ frac_digits) as [|c ds] eqn:E; [exact I|].
  now apply of_decimal_minus.
Qed.

Lemma span_radix_digits ds :
  Forall (fun c => is_digit c = true) ds ->
  span_radix 10 ds = map (fun c => c - 48) ds.
Proof.
  induction 1 as [|c ds Hc _ IH]; simpl; [reflexivity|].
  unfold radix_digit. rewrite Hc.
  unfold is_digit in Hc. apply andb_true_iff in Hc as [L U].
  apply Z.leb_le in L, U.
  destruct (c - 48 <? 10) eqn:V; [now rewrite IH|].
  apply Z.ltb_ge in V. lia.
Qed.

Lemma fold_digits ds acc :
  fold_left (fun a v => 10 * a + v) (map (fun c => c - 48) ds) acc
  = fold_left (fun a c => 10 * a + (c - 48)) ds acc.
Proof.
  revert acc. induction ds as [|c ds IH]; intros acc; simpl;
    [reflexivity | apply IH].
Qed.

(** X12. The port of the main module: 8080 when the environment variable
    is not set or is empty; NaN, not 8080, when its first character is
    neither white space, a sign nor a digit. *)
Theorem PORT_default_or_NaN :
  PORT None = parseFloat (u "8080") /\
  PORT (Some []) = parseFloat (u "8080") /\
  forall c rest,
    is_digit c = false -> StrWhiteSpaceChar c = false ->
    c <> 43 -> c <> 45 ->
    PORT (Some (c :: rest)) = NaN.
Proof.
  split; [vm_compute; reflexivity|]. split; [vm_compute; reflexivity|].
  intros c rest D W Plus Minus. unfold PORT, parseInt.
  cbn [TrimStart]. rewrite W. cbn [take_sign].
  apply Z.eqb_neq in Plus, Minus. rewrite Minus, Plus. cbn [andb].
  assert (Z0 : (48 =? c) = false).
  { apply Z.eqb_neq. intros <-. discriminate. }
  change (u "0x") with [48; 120]. change (u "0X") with [48; 88].
  cbn [strip_prefix]. rewrite Z0. cbn [span_radix].
  unfold radix_digit. rewrite D.
  destruct ((97 <=? c) && (c <=? 122)) eqn:Lo.
  - apply andb_true_iff in Lo as [L _]. apply Z.leb_le in L.
    destruct (c - 87 <? 10) eqn:V; [apply Z.ltb_lt in V; lia | reflexivity].
  - destruct ((65 <=? c) && (c <=? 90)) eqn:Up.
    + apply andb_true_iff in Up as [L _]. apply Z.leb_le in L.
      destruct (c - 55 <? 10) eqn:V; [apply Z.ltb_lt in V; lia | reflexivity].
    + reflexivity.
Qed.

(** X13. When the environment variable holds decimal digits only, the
    port is the number they write. *)
Theorem PORT_of_digits (c : Z) (rest : jsstring) :
  Forall (fun d => is_digit d = true) (c :: rest) ->
  PORT (Some (c :: rest)) = of_decimal false (c :: rest) 0.
Proof.
  intros F. pose proof F as F'. inversion F as [|? ? Hc Hr]; subst.
  unfold PORT, parseInt.
  assert (W : StrWhiteSpaceChar c = false).
  { unfold is_digit in Hc. apply andb_true_iff in Hc as [L U].
    apply Z.leb_le in L, U. unfold StrWhiteSpaceChar. cbn [existsb].
    repeat match goal with
    | |- context [c =? ?k] =>
        let E := fresh in destruct (c =? k) eqn:E;
        [apply Z.eqb_eq in E; lia|]
    end.
    cbn [orb]. destruct (8192 <=? c) eqn:E; [apply Z.leb_le in E; lia|].
    reflexivity. }
  cbn [TrimStart]. rewrite W. cbn [take_sign].
  assert (S1 : (c =? 45) = false /\ (c =? 43) = false).
  { unfold is_digit in Hc. apply andb_true_iff in Hc as [L U].
    apply Z.leb_le in L, U. split; apply Z.eqb_neq; lia. }
  destruct S1 as [-> ->]. cbn [andb].
  assert (NX : strip_prefix [48; 120] (c :: rest) = None /\
               strip_prefix [48; 88] (c :: rest) = None).
  { cbn [strip_prefix]. destruct (48 =? c); [|now split].
    destruct rest as [|d rest]; [now split|].
    inversion Hr as [|? ? Hd _]; subst.
    unfold is_digit in Hd. apply andb_true_iff in Hd as [L U].
    apply Z.leb_le in L, U.
    assert ((120 =? d) = false) as -> by (apply Z.eqb_neq; lia).
    assert ((88 =? d) = false) as -> by (apply Z.eqb_neq; lia).
    now split. }
  change (u "0x") with [48; 120]. change (u "0X") with [48; 88].
  destruct NX as [-> ->].
  rewrite (span_radix_digits _ F'). cbn [map fold_left].
  rewrite fold_digits.
  unfold of_decimal, digits_value. cbn [fold_left].
  change (0 <=? 0) with true. cbv iota.
  rewrite Z.pow_0_r, Z.mul_1_r. reflexivity.
Qed.

Section MoreFacts.
Context {rt : Runtime}.

(** The loop of [cleanupClients] in full: what it leaves of the world when
    it starts on the entries [rest] of the registry [kept ++ rest]. *)
Lemma cleanup_loop_eq now (rest : list (jsstring * Z)) :
  forall (kept : Map.t Z) w,
    clients (this w) = kept ++ rest ->
    NoDup (Map.keys (kept ++ rest)) ->
    for_each rest (fun '(clientId, lastSeen) =>
      if now - lastSeen >? timeout then
        bind (console_log (electric_plug ++ u " Client disconnected: "
                           ++ clientId))
          (fun _ => clients_delete clientId)
      else ret tt) w
    = (Ok tt,
       {| this := {| port := port (this w);
                     clients := kept ++ filter (fresh now) rest |};
          ticks := ticks w;
          trace := trace w ++ map disconnect_line (filter (stale now) rest) |}).
Proof.
  induction rest as [|[k ls] rest IH]; intros kept w C N.
  - simpl. rewrite !app_nil_r in *. rewrite <- C.
    destruct w as [[p c] t tr]. reflexivity.
  - cbn [for_each]. unfold bind at 1.
    unfold fresh at 1, stale at 1. cbn [snd filter].
    destruct (now - ls >? timeout) eqn:S.
    + run_statement. cbn [negb].
      assert (Nk : ~ In k (Map.keys kept)).
      { unfold Map.keys in *. rewrite map_app in N.
        apply NoDup_remove_2 in N. intros Hk. apply N, in_or_app. now left. }
      rewrite C, delete_app_head by exact Nk.
      rewrite (IH kept).
      * cbn [this clients port ticks trace map]. unfold disconnect_line at 2.
        cbn [fst]. rewrite <- app_assoc. reflexivity.
      * reflexivity.
      * unfold Map.keys in *. rewrite map_app in *.
        now apply NoDup_remove_1 in N.
    + run_statement. cbn [negb].
      rewrite (IH (kept ++ [(k, ls)])).
      * rewrite <- app_assoc. reflexivity.
      * rewrite C, <- app_assoc. reflexivity.
      * now rewrite <- app_assoc.
Qed.

Lemma cleanupClients_eq w :
  registry_ok w ->
  cleanupClients w
  = (Ok tt,
     {| this := {| port := port (this w);
                   clients := filter (fresh (clock (ticks w)))
                                (clients (this w)) |};
        ticks := S (ticks w);
        trace := trace w ++ map disconnect_line
                   (filter (stale (clock (ticks w))) (clients (this w))) |}).
Proof.
  intros N. unfold cleanupClients. run_statement. unfold Map.entries.
  rewrite (cleanup_loop_eq (clock (ticks w)) (clients (this w)) []);
    [reflexivity | reflexivity | exact N].
Qed.

Lemma fresh_mono now1 now2 entry :
  now1 <= now2 -> fresh now2 entry = true -> fresh now1 entry = true.
Proof.
  unfold fresh. intros L H.
  apply negb_true_iff in H. apply negb_true_iff.
  rewrite Z.gtb_ltb, Z.ltb_ge in *. lia.
Qed.

(** X1. A sweep is a filter.  On a registry without duplicate keys
    [cleanupClients] reads the clock once, returns normally, keeps exactly
    the entries last seen at most 60000 ms before that reading, in their
    order, and logs one [Client disconnected] line for each entry it drops,
    in their order; the port is untouched and the registry never grows. *)
Theorem sweep_is_filter w :
  registry_ok w ->
  let now := clock (ticks w) in
  let w' := snd (cleanupClients w) in
  fst (cleanupClients w) = Ok tt /\
  clients (this w')
  = filter (fun entry => negb (now - snd entry >? 60000)) (clients (this w)) /\
  trace w'
  = trace w ++ map disconnect_line
      (filter (fun entry => now - snd entry >? 60000) (clients (this w))) /\
  port (this w') = port (this w) /\
  ticks w' = S (ticks w) /\
  registry_ok w' /\
  (Map.size (clients (this w')) <= Map.size (clients (this w)))%nat.
Proof.
  intros N now w'. subst w'. rewrite (cleanupClients_eq w N).
  cbn [fst snd this clients port ticks trace].
  repeat split.
  - unfold registry_ok. cbn [this clients]. now apply NoDup_keys_filter.
  - apply filter_length_le.
Qed.

(** X2. Two sweeps in a row compose: the registry after them is the
    registry filtered by both clock readings.  When the clock did not step
    back this is what one sweep at the later reading leaves; when the second
    reading is not later than the first, the second sweep drops nothing and
    logs nothing. *)
Theorem sweeps_compose w :
  registry_ok w ->
  let now1 := clock (ticks w) in
  let now2 := clock (S (ticks w)) in
  let w1 := snd (cleanupClients w) in
  let w2 := snd (run [CleanupTimer; CleanupTimer] w) in
  clients (this w2)
  = filter (fresh now2) (filter (fresh now1) (clients (this w))) /\
  (now1 <= now2 ->
   clients (this w2) = filter (fresh now2) (clients (this w))) /\
  (now2 <= now1 ->
   clients (this w2) = clients (this w1) /\ trace w2 = trace w1).
Proof.
  intros N now1 now2 w1 w2.
  assert (E2 : w2 = snd (cleanupClients w1)).
  { subst w2 w1. rewrite !run_cons. reflexivity. }
  assert (C1 : clients (this w1) = filter (fresh now1) (clients (this w))).
  { subst w1. now rewrite (cleanupClients_eq w N). }
  assert (T1 : ticks w1 = S (ticks w)).
  { subst w1. now rewrite (cleanupClients_eq w N). }
  assert (N1 : registry_ok w1).
  { unfold registry_ok. rewrite C1. now apply NoDup_keys_filter. }
  clearbody w1 w2. subst w2. rewrite (cleanupClients_eq w1 N1).
  cbn [snd this clients trace]. rewrite T1, C1. fold now2.
  split; [reflexivity|]. split.
  - intros L. apply filter_filter_implied. intros x. now apply fresh_mono.
  - intros L.
    assert (A : forall x, In x (filter (fresh now1) (clients (this w))) ->
                          fresh now2 x = true).
    { intros x Hx. apply filter_In in Hx as [_ Hx].
      now apply (fresh_mono now2 now1). }
    split.
    + now apply filter_all.
    + rewrite filter_none; [now rewrite app_nil_r|].
      intros x Hx. apply A in Hx. rewrite fresh_stale in Hx.
      now apply negb_true_iff in Hx.
Qed.

(** X3. A sweep changes the registry exactly when some peer was last seen
    more than 60000 ms before the clock reading; when it changes nothing it
    logs nothing.  In particular a sweep of the empty registry does
    nothing. *)
Theorem sweep_without_effect w :
  registry_ok w ->
  let now := clock (ticks w) in
  let w' := snd (cleanupClients w) in
  ((forall id lastSeen,
      In (id, lastSeen) (Map.entries (clients (this w))) ->
      now - lastSeen <= 60000) <->
   clients (this w') = clients (this w)) /\
  (clients (this w') = clients (this w) -> trace w' = trace w) /\
  (clients (this w) = [] -> clients (this w') = [] /\ trace w' = trace w).
Proof.
  intros N now w'. subst w'. rewrite (cleanupClients_eq w N).
  cbn [snd this clients trace]. fold now.
  assert (F : (forall id lastSeen,
                 In (id, lastSeen) (Map.entries (clients (this w))) ->
                 now - lastSeen <= 60000) <->
              forall x, In x (clients (this w)) -> fresh now x = true).
  { unfold fresh, timeout, Map.entries. split.
    - intros H [id ls] Hx. specialize (H id ls Hx). cbn [snd].
      apply negb_true_iff. rewrite Z.gtb_ltb, Z.ltb_ge. exact H.
    - intros H id ls Hx. specialize (H (id, ls) Hx). cbn [snd] in H.
      apply negb_true_iff in H. rewrite Z.gtb_ltb, Z.ltb_ge in H. exact H. }
  split; [|split].
  - rewrite F. symmetry. apply filter_all.
  - intros E. pose proof (proj1 (filter_all _ _) E) as E'.
    rewrite filter_none; [now rewrite app_nil_r|].
    intros x Hx. apply E' in Hx. rewrite fresh_stale in Hx.
    now apply negb_true_iff in Hx.
  - intros ->. simpl. now rewrite app_nil_r.
Qed.


Lemma in_set_inv (m : Map.t Z) k0 v0 k v :
  In (k, v) (Map.set k0 v0 m) -> (k = k0 /\ v = v0) \/ In (k, v) m.
Proof.
  induction m as [|[k' v'] m IH]; simpl.
  - intros [H|[]]. injection H as <- <-. now left.
  - destruct (eqb k' k0) eqn:E; simpl.
    + apply eqb_eq in E. subst k'. intros [H|H].
      * injection H as <- <-. now left.
      * right. now right.
    + intros [H|H]; [right; now left|].
      destruct (IH H) as [?|?]; [now left | right; now right].
Qed.

Lemma senders_app events1 events2 :
  senders (events1 ++ events2) = senders events1 ++ senders events2.
Proof.
  induction events1 as [|e events1 IH]; [reflexivity|].
  destruct e; simpl; try exact IH. now rewrite IH.
Qed.

Lemma entries_known_weaken known known' w w' :
  incl known known' -> (ticks w <= ticks w')%nat ->
  incl (clients (this w')) (clients (this w)) ->
  entries_known known w -> entries_known known' w'.
Proof.
  intros I T C H id ls Hin. apply C in Hin.
  destruct (H id ls Hin) as ((rinfo & Hr & ->) & (n & Hn & ->)).
  split; [exists rinfo; auto | exists n; split; [lia | reflexivity]].
Qed.

Lemma dispatch_known e known w :
  registry_ok w -> entries_known known w ->
  entries_known (known ++ senders [e]) (snd (dispatch e w)).
Proof.
  intros N H. pose proof (ticks_grow_dispatch e w) as T.
  destruct e as [msg rinfo| | |err]; cbn [senders dispatch] in *.
  - pose proof (ticks_grow_on_message msg rinfo w) as T1.
    intros id ls Hin. unfold Map.entries in Hin.
    rewrite on_message_this in Hin. cbn [touched this clients] in Hin.
    apply in_set_inv in Hin as [[-> ->]|Hin].
    + split; [exists rinfo; split; [apply in_or_app; right; now left | reflexivity]|].
      exists (ticks w). split; [lia | reflexivity].
    + destruct (H id ls Hin) as ((r & Hr & ->) & (n & Hn & ->)).
      split; [exists r; split; [apply in_or_app; now left | reflexivity]|].
      exists n. split; [lia | reflexivity].
  - apply (entries_known_weaken known _ w); auto.
    + apply incl_appl, incl_refl.
    + rewrite (cleanupClients_eq w N). cbn [snd this clients].
      intros x Hx. now apply filter_In in Hx.
  - apply (entries_known_weaken known _ w); auto.
    + apply incl_appl, incl_refl.
    + rewrite getStats_eq. apply incl_refl.
  - apply (entries_known_weaken known _ w); auto.
    + apply incl_appl, incl_refl.
    + destruct (sendResponse_callback_eq err w) as [_ ->]. apply incl_refl.
Qed.

Lemma run_known events :
  forall known w,
    registry_ok w -> entries_known known w ->
    entries_known (known ++ senders events) (snd (run events w)).
Proof.
  induction events as [|e events IH]; intros known w N H.
  - simpl. now rewrite app_nil_r.
  - rewrite run_cons.
    change (e :: events) with ([e] ++ events).
    rewrite senders_app, app_assoc.
    apply IH; [apply dispatch_ok, N | now apply dispatch_known].
Qed.

Lemma dispatch_size e w :
  registry_ok w ->
  (Map.size (clients (this (snd (dispatch e w))))
   <= Map.size (clients (this w)) + length (senders [e]))%nat.
Proof.
  intros N. destruct e as [msg rinfo| | |err]; cbn [senders dispatch length].
  - rewrite on_message_this. cbn [touched this clients]. rewrite size_set.
    unfold Map.size. destruct (Map.has _ _); simpl; lia.
  - rewrite (cleanupClients_eq w N). cbn [snd this clients].
    pose proof (filter_length_le (fresh (clock (ticks w))) (clients (this w))).
    unfold Map.size. lia.
  - rewrite getStats_eq. cbn [snd this]. lia.
  - destruct (sendResponse_callback_eq err w) as [_ ->]. lia.
Qed.

Lemma run_size events :
  forall w, registry_ok w ->
    (Map.size (clients (this (snd (run events w))))
     <= Map.size (clients (this w)) + length (senders events))%nat.
Proof.
  induction events as [|e events IH]; intros w N.
  - simpl. lia.
  - rewrite run_cons.
    pose proof (dispatch_size e w N) as D.
    pose proof (IH _ (proj2 (dispatch_ok e w N))) as R.
    change (e :: events) with ([e] ++ events).
    rewrite senders_app, length_app. lia.
Qed.

(** X4. Whatever events a new server has handled, every entry of its
    registry is keyed by the address and port of a datagram it received and
    holds a clock reading taken before; the registry never has more entries
    than datagrams were received. *)
Theorem registry_holds_only_senders (history : list event) (p : Z) :
  let w := snd (run history (UDPServer_new p)) in
  (forall id lastSeen,
     In (id, lastSeen) (Map.entries (clients (this w))) ->
     (exists msg rinfo,
        In (Message msg rinfo) history /\ id = address_port rinfo) /\
     (exists n, (n < ticks w)%nat /\ lastSeen = clock n)) /\
  (Map.size (clients (this w)) <= length (senders history))%nat.
Proof.
  intros w. split.
  - intros id ls Hin.
    destruct (run_known history [] (UDPServer_new p) (registry_ok_new p))
      with (id := id) (lastSeen := ls) as ((rinfo & Hr & ->) & Hn).
    + intros ? ? [].
    + exact Hin.
    + split; [|exact Hn]. simpl in Hr. clear - Hr.
      induction history as [|[m r| | |e] history IH]; simpl in Hr;
        try contradiction;
        try (destruct (IH Hr) as (msg & ri & Hi & E);
             exists msg, ri; split; [now right | exact E]).
      destruct Hr as [<-|Hr].
      * exists m, r. split; [now left | reflexivity].
      * destruct (IH Hr) as (msg & ri & Hi & E).
        exists msg, ri. split; [now right | exact E].
  - exact (run_size history (UDPServer_new p) (registry_ok_new p)).
Qed.

(** X5. With a clock that never steps back, no peer is recorded as seen
    in the future: at every later reading each last-seen time is at most the
    clock, so the age [getStats] prints, [floor((now - lastSeen) / 1000)],
    is never negative. *)
Theorem last_seen_never_in_future (history : list event) (p : Z) :
  (forall i j, (i <= j)%nat -> clock i <= clock j) ->
  let w := snd (run history (UDPServer_new p)) in
  forall id lastSeen n,
    In (id, lastSeen) (Map.entries (clients (this w))) ->
    (ticks w <= n)%nat ->
    lastSeen <= clock n /\ 0 <= (clock n - lastSeen) / 1000.
Proof.
  intros Mono w id ls n Hin Hn.
  destruct (run_known history [] (UDPServer_new p) (registry_ok_new p))
    with (id := id) (lastSeen := ls) as (_ & (k & Hk & ->)).
  - intros ? ? [].
  - exact Hin.
  - fold w in Hk. assert (clock k <= clock n) by (apply Mono; lia).
    split; [assumption|]. apply Z.div_pos; lia.
Qed.

Lemma sends_logs d : Forall is_log d -> sends d = [].
Proof.
  induction 1 as [|e d He _ IH]; [reflexivity|]. now destruct e.
Qed.

Lemma errors_logs d : Forall is_log d -> errors d = [].
Proof.
  induction 1 as [|e d He _ IH]; [reflexivity|]. now destruct e.
Qed.

Lemma errors_app (a b : list effect) : errors (a ++ b) = errors a ++ errors b.
Proof.
  induction a as [|e a IH]; [reflexivity|].
  destruct e; simpl; [exact IH | now rewrite IH | exact IH].
Qed.

Lemma quiet_ret {A} (a : A) : quiet (ret a).
Proof. intros w. exists []. now rewrite app_nil_r. Qed.

Lemma quiet_throw {A} (e : exn) : quiet (@throw A e).
Proof. intros w. exists []. now rewrite app_nil_r. Qed.

Lemma quiet_lift {A} (r : result A) : quiet (lift r).
Proof. intros w. exists []. now rewrite app_nil_r. Qed.

Lemma quiet_console_log line : quiet (console_log line).
Proof.
  intros w. exists [ConsoleLog line]. split; [reflexivity|].
  repeat constructor.
Qed.

Lemma quiet_Date_now : quiet Date_now.
Proof. intros w. exists []. now rewrite app_nil_r. Qed.

Lemma quiet_get_clients : quiet get_clients.
Proof. intros w. exists []. now rewrite app_nil_r. Qed.

Lemma quiet_put_clients m : quiet (put_clients m).
Proof. intros w. exists []. now rewrite app_nil_r. Qed.

Lemma quiet_bind {A B} (c : M A) (k : A -> M B) :
  quiet c -> (forall a, quiet (k a)) -> quiet (bind c k).
Proof.
  intros Hc Hk w. unfold bind. destruct (Hc w) as (d1 & T1 & S1).
  destruct (c w) as [[a|e] w1]; simpl in *.
  - destruct (Hk a w1) as (d2 & T2 & S2). exists (d1 ++ d2).
    rewrite T2, T1, app_assoc. split; [reflexivity|].
    apply Forall_app. now split.
  - now exists d1.
Qed.

Lemma quiet_if {A} (b : bool) (c1 c2 : M A) :
  quiet c1 -> quiet c2 -> quiet (if b then c1 else c2).
Proof. now destruct b. Qed.

Lemma quiet_for_each {A} (xs : list A) (body : A -> M unit) :
  (forall x, quiet (body x)) -> quiet (for_each xs body).
Proof.
  intros H. induction xs as [|x xs IH]; simpl.
  - apply quiet_ret.
  - apply quiet_bind; auto.
Qed.

Lemma replies_last_ret rinfo : replies_last rinfo (ret tt).
Proof. intros w. exists []. split; [constructor|]. left. now rewrite app_nil_r. Qed.

Lemma replies_last_send rinfo t :
  replies_last rinfo (sendResponse (stringify_ack t) rinfo).
Proof.
  intros w. exists []. split; [constructor|]. unfold sendResponse.
  destruct (valid_port (RemoteInfo.port rinfo)) eqn:V.
  - right. split; [reflexivity|]. split; [reflexivity|]. now exists t.
  - left. unfold throw. cbn [snd]. now rewrite app_nil_r.
Qed.

Lemma replies_last_bind {A} rinfo (c : M A) (k : A -> M unit) :
  quiet c -> (forall a, replies_last rinfo (k a)) ->
  replies_last rinfo (bind c k).
Proof.
  intros Hc Hk w. unfold bind. destruct (Hc w) as (d1 & T1 & S1).
  destruct (c w) as [[a|e] w1]; simpl in *.
  - destruct (Hk a w1) as (d2 & S2 & [T2|(R & V & t & T2)]); exists (d1 ++ d2);
      (split; [apply Forall_app; now split|]).
    + left. now rewrite T2, T1, app_assoc.
    + right. split; [exact R|]. split; [exact V|]. exists t.
      now rewrite T2, T1, !app_assoc.
  - exists d1. auto.
Qed.

Lemma replies_last_if rinfo (b : bool) (c1 c2 : M unit) :
  replies_last rinfo c1 -> replies_last rinfo c2 ->
  replies_last rinfo (if b then c1 else c2).
Proof. now destruct b. Qed.

Lemma quiet_log_joystick heading data name :
  quiet (log_joystick heading data name).
Proof.
  unfold log_joystick.
  auto 20 using quiet_bind, quiet_console_log, quiet_lift.
Qed.

Lemma replies_last_handleJoystickData data rinfo :
  replies_last rinfo (handleJoystickData data rinfo).
Proof.
  unfold handleJoystickData, new_Date_toLocaleTimeString.
  repeat (apply replies_last_bind;
          [auto 10 using quiet_bind, quiet_ret, quiet_lift, quiet_Date_now,
             quiet_console_log, quiet_if, quiet_log_joystick
          | intros ]).
  apply replies_last_if; [|apply replies_last_ret].
  repeat (apply replies_last_bind;
          [auto 10 using quiet_bind, quiet_ret, quiet_lift, quiet_Date_now,
             quiet_console_log, quiet_if, quiet_log_joystick
          | intros ]).
  apply replies_last_send.
Qed.

Lemma padded_throws data name field e :
  (axis <- Get data name ;; v <- Get axis field ;; call_padStart v 6)%result
  = Throw e -> e = ETypeError.
Proof.
  unfold result_bind.
  destruct (Get data name) as [axis|e1] eqn:G1.
  - destruct (Get axis field) as [v|e2] eqn:G2.
    + destruct v; simpl; congruence.
    + intros [= <-]. now apply Get_throws in G2.
  - intros [= <-]. now apply Get_throws in G1.
Qed.

Lemma shown_throws data name field e :
  (axis <- Get data name ;; v <- Get axis field ;; ToString v)%result
  = Throw e -> e = ETypeError.
Proof.
  unfold result_bind.
  destruct (Get data name) as [axis|e1] eqn:G1.
  - destruct (Get axis field) as [v|e2] eqn:G2.
    + unfold ToString. destruct v; try destruct (ToString_other _); congruence.
    + intros [= <-]. now apply Get_throws in G2.
  - intros [= <-]. now apply Get_throws in G1.
Qed.

Lemma throws_only_ret {A} allowed (a : A) : throws_only allowed (ret a).
Proof. intros w e. discriminate. Qed.

Lemma throws_only_throw {A} (allowed : exn -> Prop) e :
  allowed e -> throws_only allowed (@throw A e).
Proof. intros H w e' [= <-]. exact H. Qed.

Lemma throws_only_lift {A} (allowed : exn -> Prop) (r : result A) :
  (forall e, r = Throw e -> allowed e) -> throws_only allowed (lift r).
Proof. intros H w e. apply H. Qed.

Lemma throws_only_emit allowed ef : throws_only allowed (emit ef).
Proof. intros w e. discriminate. Qed.

Lemma throws_only_Date_now allowed : throws_only allowed Date_now.
Proof. intros w e. discriminate. Qed.

Lemma throws_only_bind {A B} allowed (c : M A) (k : A -> M B) :
  throws_only allowed c -> (forall a, throws_only allowed (k a)) ->
  throws_only allowed (bind c k).
Proof.
  intros Hc Hk w e. unfold bind. specialize (Hc w).
  destruct (c w) as [[a|e1] w1]; simpl in *.
  - apply Hk.
  - intros [= <-]. now apply Hc.
Qed.

Lemma throws_only_if {A} allowed (b : bool) (c1 c2 : M A) :
  throws_only allowed c1 -> throws_only allowed c2 ->
  throws_only allowed (if b then c1 else c2).
Proof. now destruct b. Qed.

Lemma throws_only_sendResponse message rinfo :
  throws_only (handler_error rinfo) (sendResponse message rinfo).
Proof.
  unfold sendResponse.
  destruct (valid_port (RemoteInfo.port rinfo)) eqn:V.
  - apply throws_only_emit.
  - apply throws_only_throw. right. now split.
Qed.

Lemma throws_only_handleJoystickData data rinfo :
  throws_only (handler_error rinfo) (handleJoystickData data rinfo).
Proof.
  assert (P : forall name field,
            throws_only (handler_error rinfo)
              (lift (axis <- Get data name ;; v <- Get axis field ;;
                     call_padStart v 6)%result)).
  { intros. apply throws_only_lift. intros e H. left.
    exact (padded_throws _ _ _ _ H). }
  assert (S : forall name field,
            throws_only (handler_error rinfo)
              (lift (axis <- Get data name ;; v <- Get axis field ;;
                     ToString v)%result)).
  { intros. apply throws_only_lift. intros e H. left.
    exact (shown_throws _ _ _ _ H). }
  assert (D : forall name,
            throws_only (handler_error rinfo)
              (lift (axis <- Get data name ;;
                     v <- Get axis (u "distance") ;;
                     parseFloat_value v)%result)).
  { intros. apply throws_only_lift. intros e H. left.
    exact (read_distance_throws data name e H). }
  unfold handleJoystickData, log_joystick, new_Date_toLocaleTimeString,
    console_log.
  auto 30 using throws_only_ret, throws_only_emit, throws_only_Date_now,
    throws_only_bind, throws_only_if, throws_only_sendResponse.
Qed.

(** X6. Whatever value it is given, [handleJoystickData] leaves the fields
    of the server alone and throws nothing but a TypeError or, for a sender
    whose port the socket refuses, the RangeError of the socket.  Apart from
    lines on [console.log] it does at most one thing: handing the socket the
    acknowledgment [{"status":"received","timestamp":t}] for the sender, as
    its very last effect, which happens only for a port the socket accepts.
    When it throws it has sent nothing. *)
Theorem handler_replies_last data rinfo w :
  let r := handleJoystickData data rinfo w in
  this (snd r) = this w /\
  (forall e, fst r = Throw e ->
     e = ETypeError \/
     (e = ERangeError /\ valid_port (RemoteInfo.port rinfo) = false)) /\
  exists lines,
    Forall is_log lines /\
    match fst r with
    | Throw _ => trace (snd r) = trace w ++ lines
    | Ok _ =>
        trace (snd r) = trace w ++ lines \/
        (valid_port (RemoteInfo.port rinfo) = true /\
         exists t,
           trace (snd r)
           = trace w ++ lines
             ++ [SocketSend (q "{'status':'received','timestamp':" ++ of_Z t
                             ++ u "}")
                   (RemoteInfo.port rinfo) (RemoteInfo.address rinfo)])
    end.
Proof.
  intros r. subst r. split; [apply keeps_this_handleJoystickData|].
  split; [apply throws_only_handleJoystickData|].
  destruct (replies_last_handleJoystickData data rinfo w) as (d & L & S).
  exists d. split; [exact L|].
  destruct (fst (handleJoystickData data rinfo w)) as [[]|e].
  - destruct S as [S|[_ S]]; auto.
  - destruct S as [S|[S _]]; [exact S | discriminate].
Qed.

Lemma text_lines_logs message rinfo timestamp :
  Forall is_log (text_lines message rinfo timestamp).
Proof. repeat constructor. Qed.

(** The listener on a sender whose port the socket accepts. *)
Lemma on_message_outcome msg rinfo w :
  let message := Buffer_toString msg in
  let w' := snd (on_message msg rinfo w) in
  valid_port (RemoteInfo.port rinfo) = true ->
  exists lines,
    Forall is_log lines /\
    ((match JSON.parse message with
      | None => True
      | Some data =>
          exists e, fst (handleJoystickData data rinfo (touched rinfo w))
                    = Throw e
      end /\
      exists timestamp,
        trace w'
        = trace w ++ lines
          ++ [SocketSend (echo message timestamp) (RemoteInfo.port rinfo)
                (RemoteInfo.address rinfo)]) \/
     ((exists data,
         JSON.parse message = Some data /\
         fst (handleJoystickData data rinfo (touched rinfo w)) = Ok tt) /\
      (trace w' = trace w ++ lines \/
       exists t,
         trace w'
         = trace w ++ lines
           ++ [SocketSend (q "{'status':'received','timestamp':" ++ of_Z t
                           ++ u "}")
                 (RemoteInfo.port rinfo) (RemoteInfo.address rinfo)]))).
Proof.
  intros message w' V. subst w'. rewrite on_message_touched.
  unfold try_catch, bind, JSON_parse. fold message.
  destruct (JSON.parse message) as [data|] eqn:P.
  - unfold ret.
    destruct (replies_last_handleJoystickData data rinfo (touched rinfo w))
      as (d & L & S).
    destruct (handleJoystickData data rinfo (touched rinfo w))
      as [[[]|e] w1] eqn:H; cbn [fst snd] in *.
    + exists d. split; [exact L|]. right.
      split; [exists data; split; [reflexivity | now rewrite H]|].
      destruct S as [S|(_ & _ & S)]; auto.
    + destruct S as [S|[S _]]; [|discriminate].
      rewrite (handleTextMessage_sent _ _ _ V). cbn [snd trace].
      exists (d ++ text_lines message rinfo
                     (toLocaleTimeString (clock (ticks w1)))).
      split.
      * apply Forall_app. split; [exact L | apply text_lines_logs].
      * left. split; [now exists e|]. eexists. rewrite S.
        cbn [touched trace]. unfold text_effects.
        rewrite <- !app_assoc. reflexivity.
  - unfold throw. rewrite (handleTextMessage_sent _ _ _ V).
    cbn [snd trace touched ticks].
    eexists (text_lines message rinfo _).
    split; [apply text_lines_logs|]. left. split; [exact I|].
    eexists. unfold text_effects. reflexivity.
Qed.

(** The listener on a sender whose port the socket refuses: nothing is sent,
    and the error of the socket is written once the text handler is
    reached. *)
Lemma on_message_refused msg rinfo w :
  let message := Buffer_toString msg in
  let w' := snd (on_message msg rinfo w) in
  valid_port (RemoteInfo.port rinfo) = false ->
  exists lines,
    Forall is_log lines /\
    ((match JSON.parse message with
      | None => True
      | Some data =>
          exists e, fst (handleJoystickData data rinfo (touched rinfo w))
                    = Throw e
      end /\
      trace w' = trace w ++ lines ++ [refused_line]) \/
     ((exists data,
         JSON.parse message = Some data /\
         fst (handleJoystickData data rinfo (touched rinfo w)) = Ok tt) /\
      trace w' = trace w ++ lines)).
Proof.
  intros message w' V. subst w'. rewrite on_message_touched.
  unfold try_catch, bind, JSON_parse. fold message.
  destruct (JSON.parse message) as [data|] eqn:P.
  - unfold ret.
    destruct (replies_last_handleJoystickData data rinfo (touched rinfo w))
      as (d & L & [S|(_ & V' & _)]); [|congruence].
    destruct (handleJoystickData data rinfo (touched rinfo w))
      as [[[]|e] w1] eqn:H; cbn [fst snd] in *.
    + exists d. split; [exact L|]. right.
      split; [exists data; split; [reflexivity | now rewrite H]|]. exact S.
    + rewrite (handleTextMessage_refused _ _ _ V).
      unfold console_error, emit. cbn [snd trace].
      exists (d ++ text_lines message rinfo
                     (toLocaleTimeString (clock (ticks w1)))).
      split.
      * apply Forall_app. split; [exact L | apply text_lines_logs].
      * left. split; [now exists e|]. rewrite S.
        cbn [touched trace]. unfold refused_line.
        rewrite <- !app_assoc. reflexivity.
  - unfold throw. rewrite (handleTextMessage_refused _ _ _ V).
    unfold console_error, emit. cbn [snd trace touched ticks].
    eexists (text_lines message rinfo _).
    split; [apply text_lines_logs|]. left. split; [exact I|].
    unfold refused_line. rewrite <- !app_assoc. reflexivity.
Qed.

(** X7. Every datagram is answered at most once, at the port and address of
    its sender.  From a port the socket can send to, nothing is written to
    [console.error]; the datagram is answered with the echo of its text
    exactly when the text is not JSON or [handleJoystickData] throws on its
    value, and otherwise the answer, if any, is the joystick acknowledgment.
    From a port the socket refuses nothing is sent at all, and the refusal
    is written to [console.error], once, exactly when the text handler was
    reached. *)
Theorem datagram_answered_at_most_once msg rinfo w :
  let message := Buffer_toString msg in
  let w' := snd (on_message msg rinfo w) in
  let as_text :=
    match JSON.parse message with
    | None => true
    | Some data =>
        match fst (handleJoystickData data rinfo (touched rinfo w)) with
        | Throw _ => true
        | Ok _ => false
        end
    end in
  exists new,
    trace w' = trace w ++ new /\
    (length (sends new) <= 1)%nat /\
    if valid_port (RemoteInfo.port rinfo) then
      errors new = [] /\
      if as_text
      then exists timestamp,
             sends new = [(echo message timestamp, RemoteInfo.port rinfo,
                           RemoteInfo.address rinfo)]
      else sends new = [] \/
           exists t,
             sends new
             = [(q "{'status':'received','timestamp':" ++ of_Z t ++ u "}",
                 RemoteInfo.port rinfo, RemoteInfo.address rinfo)]
    else
      sends new = [] /\
      errors new
      = if as_text then [u "Error processing message: RangeError"] else [].
Proof.
  intros message w' as_text.
  destruct (valid_port (RemoteInfo.port rinfo)) eqn:V.
  - destruct (on_message_outcome msg rinfo w V)
      as (lines & L & [(C & ts & T) | ((data & P & H) & [T | (t & T)])]);
      fold message w' in C, T || fold message w' in T.
    + exists (lines ++ [SocketSend (echo message ts) (RemoteInfo.port rinfo)
                          (RemoteInfo.address rinfo)]).
      split; [exact T|].
      rewrite errors_app, sends_app, (errors_logs _ L), (sends_logs _ L).
      cbn [app errors sends length].
      split; [lia|]. split; [reflexivity|].
      subst as_text. destruct (JSON.parse message) as [data|].
      * destruct C as (e & ->). eauto.
      * eauto.
    + exists lines. split; [exact T|].
      rewrite (errors_logs _ L), (sends_logs _ L). cbn [length].
      split; [lia|]. split; [reflexivity|].
      subst as_text. fold message in P. rewrite P, H. now left.
    + eexists (lines ++ [SocketSend _ (RemoteInfo.port rinfo)
                           (RemoteInfo.address rinfo)]).
      split; [exact T|].
      rewrite errors_app, sends_app, (errors_logs _ L), (sends_logs _ L).
      cbn [app errors sends length].
      split; [lia|]. split; [reflexivity|].
      subst as_text. fold message in P. rewrite P, H. right. eauto.
  - destruct (on_message_refused msg rinfo w V)
      as (lines & L & [(C & T) | ((data & P & H) & T)]);
      fold message w' in C, T || fold message w' in T.
    + exists (lines ++ [refused_line]). split; [exact T|].
      rewrite errors_app, sends_app, (errors_logs _ L), (sends_logs _ L).
      cbn [app errors sends length refused_line].
      split; [lia|]. split; [reflexivity|].
      subst as_text. destruct (JSON.parse message) as [data|].
      * destruct C as (e & ->). reflexivity.
      * reflexivity.
    + exists lines. split; [exact T|].
      rewrite (errors_logs _ L), (sends_logs _ L). cbn [length].
      split; [lia|]. split; [reflexivity|].
      subst as_text. fold message in P. now rewrite P, H.
Qed.

Lemma on_message_sends msg rinfo w :
  exists d,
    trace (snd (on_message msg rinfo w)) = trace w ++ d /\
    (sends d = [] \/
     exists message,
       sends d = [(message, RemoteInfo.port rinfo, RemoteInfo.address rinfo)]).
Proof.
  destruct (valid_port (RemoteInfo.port rinfo)) eqn:V.
  - destruct (on_message_outcome msg rinfo w V)
      as (lines & L & [(_ & ts & T) | (_ & [T | (t & T)])]);
      eexists; (split; [exact T|]);
      rewrite ?sends_app, (sends_logs _ L); cbn [app sends]; eauto.
  - destruct (on_message_refused msg rinfo w V)
      as (lines & L & [(_ & T) | (_ & T)]);
      eexists; (split; [exact T|]);
      rewrite ?sends_app, (sends_logs _ L); cbn [app sends refused_line]; eauto.
Qed.

Lemma quiet_cleanupClients : quiet cleanupClients.
Proof.
  unfold cleanupClients. apply quiet_bind; [apply quiet_Date_now|].
  intros now. apply quiet_bind; [apply quiet_get_clients|].
  intros m. apply quiet_for_each. intros [clientId lastSeen].
  unfold clients_delete.
  auto 10 using quiet_if, quiet_bind, quiet_console_log, quiet_ret,
    quiet_get_clients, quiet_put_clients.
Qed.

Lemma stats_lines_logs n entries : Forall is_log (stats_lines n entries).
Proof.
  revert n. induction entries as [|[k ls] entries IH]; intros n; simpl;
    constructor; [exact I | apply IH].
Qed.

Lemma stats_report_logs w : Forall is_log (stats_report w).
Proof.
  unfold stats_report. repeat (apply Forall_cons; [exact I|]).
  apply Forall_app. split; [|repeat constructor].
  destruct (0 <? Map.size (clients (this w)))%nat; [|constructor].
  constructor; [exact I | apply stats_lines_logs].
Qed.

Lemma stats_lines_length n entries :
  length (stats_lines n entries) = length entries.
Proof.
  revert n. induction entries as [|[k ls] entries IH]; intros n; simpl;
    [reflexivity | now rewrite IH].
Qed.

Lemma dispatch_sends e w :
  exists d,
    trace (snd (dispatch e w)) = trace w ++ d /\
    (length (sends d) <= length (senders [e]))%nat /\
    forall message p a,
      In (message, p, a) (sends d) ->
      exists rinfo, In rinfo (senders [e]) /\
        p = RemoteInfo.port rinfo /\ a = RemoteInfo.address rinfo.
Proof.
  destruct e as [msg rinfo| | |err]; cbn [dispatch senders length].
  - destruct (on_message_sends msg rinfo w) as (d & T & [S | (m & S)]);
      exists d; (split; [exact T|]); rewrite S; cbn [length]; split; try lia.
    + intros ? ? ? [].
    + intros ? ? ? [[= <- <- <-]|[]]. exists rinfo. repeat split. now left.
  - destruct (quiet_cleanupClients w) as (d & T & L). exists d.
    split; [exact T|]. rewrite (sends_logs _ L). split; [simpl; lia|].
    intros ? ? ? [].
  - exists (stats_report w). rewrite getStats_eq. split; [reflexivity|].
    rewrite (sends_logs _ (stats_report_logs w)). split; [simpl; lia|].
    intros ? ? ? [].
  - destruct err as [m|]; simpl.
    + eexists. split; [reflexivity|]. simpl. split; [lia|]. intros ? ? ? [].
    + exists []. rewrite app_nil_r. split; [reflexivity|]. simpl.
      split; [lia|]. intros ? ? ? [].
Qed.

(** X8. Only datagrams are answered.  Over any run of the event loop, the
    datagrams handed to the socket are at most as many as the datagrams
    received and each goes to the port and address of one of their senders;
    the timers and the callbacks of failed sends hand the socket nothing, so
    a failed send is never retried. *)
Theorem only_datagrams_are_answered (events : list event) w :
  exists new,
    trace (snd (run events w)) = trace w ++ new /\
    (length (sends new) <= length (senders events))%nat /\
    (forall message p a,
       In (message, p, a) (sends new) ->
       exists rinfo, In rinfo (senders events) /\
         p = RemoteInfo.port rinfo /\ a = RemoteInfo.address rinfo) /\
    (senders events = [] -> sends new = []).
Proof.
  revert w. induction events as [|e events IH]; intros w.
  - exists []. rewrite app_nil_r. repeat split; auto. intros ? ? ? [].
  - rewrite run_cons.
    destruct (dispatch_sends e w) as (d1 & T1 & L1 & A1).
    destruct (IH (snd (dispatch e w))) as (d2 & T2 & L2 & A2 & _).
    assert (E : senders (e :: events) = senders [e] ++ senders events).
    { change (e :: events) with ([e] ++ events). apply senders_app. }
    exists (d1 ++ d2). rewrite T2, T1, app_assoc, sends_app, E.
    split; [reflexivity|].
    assert (Len : (length (sends d1 ++ sends d2)
                   <= length (senders [e] ++ senders events))%nat).
    { rewrite !length_app. lia. }
    split; [exact Len|]. split.
    + intros m p a Hin. apply in_app_or in Hin as [Hin|Hin].
      * destruct (A1 m p a Hin) as (r & Hr & Hp). exists r.
        split; [apply in_or_app; now left | exact Hp].
      * destruct (A2 m p a Hin) as (r & Hr & Hp). exists r.
        split; [apply in_or_app; now right | exact Hp].
    + intros Z. rewrite Z in Len. simpl in Len.
      destruct (sends d1 ++ sends d2); [reflexivity | simpl in Len; lia].
Qed.

(** X9. [handleJoystickData] looks at nothing but the eight strings of the
    [JoystickData] interface: two values with the same eight strings are
    handled alike, whatever other properties they carry and in whatever
    order. *)
Theorem same_fields_same_handling data1 data2 f rinfo w :
  as_JoystickData data1 = Some f ->
  as_JoystickData data2 = Some f ->
  handleJoystickData data1 rinfo w = handleJoystickData data2 rinfo w.
Proof.
  intros F1 F2.
  now rewrite (handleJoystickData_shaped data1 f rinfo w F1),
              (handleJoystickData_shaped data2 f rinfo w F2).
Qed.

(** X10. The report of [getStats] is made of [console.log] lines only: 7
    for an empty registry, with no reading of the clock, and 8 plus one per
    peer otherwise, with one reading of the clock per peer; its third line
    gives the number of peers. *)
Theorem stats_report_shape w :
  let n := Map.size (clients (this w)) in
  let w' := snd (getStats w) in
  exists lines,
    trace w' = trace w ++ lines /\
    Forall is_log lines /\
    length lines = (if (0 <? n)%nat then 8 + n else 7)%nat /\
    ticks w' = (if (0 <? n)%nat then ticks w + n else ticks w)%nat /\
    nth_error lines 2
    = Some (ConsoleLog (u "Active Clients: " ++ of_Z (Z.of_nat n))).
Proof.
  intros n w'. subst w'. rewrite getStats_eq. cbn [snd trace ticks].
  exists (stats_report w). split; [reflexivity|].
  split; [apply stats_report_logs|]. fold n.
  split; [|split; [reflexivity|reflexivity]].
  unfold stats_report. fold n. cbn [length app].
  rewrite length_app. destruct (0 <? n)%nat; cbn [length].
  - rewrite stats_lines_length. unfold Map.entries. fold (Map.size (clients (this w))).
    fold n. lia.
  - reflexivity.
Qed.

(** X11. Distances written with a leading minus sign never count as
    movement: a joystick message whose two distances start with [-] is
    neither logged nor acknowledged, only the sender is recorded. *)
Theorem negative_distances_ignored msg rinfo w data f left_rest right_rest :
  JSON.parse (Buffer_toString msg) = Some data ->
  as_JoystickData data = Some f ->
  JoystickData.distance (JoystickData.left f) = 45 :: left_rest ->
  JoystickData.distance (JoystickData.right f) = 45 :: right_rest ->
  moved (JoystickData.left f) = false /\
  moved (JoystickData.right f) = false /\
  on_message msg rinfo w
  = (Ok tt,
     {| this := this (touched rinfo w);
        ticks := S (S (ticks w));
        trace := trace w |}).
Proof.
  intros P F L R.
  assert (ML : moved (JoystickData.left f) = false).
  { unfold moved. rewrite L. apply not_positive_gt, parseFloat_minus. }
  assert (MR : moved (JoystickData.right f) = false).
  { unfold moved. rewrite R. apply not_positive_gt, parseFloat_minus. }
  split; [exact ML|]. split; [exact MR|].
  rewrite (on_message_shaped msg rinfo w data f P F)
    by (rewrite ML, MR; discriminate).
  unfold joystick_effects. rewrite ML, MR. cbn [orb].
  now rewrite app_nil_r.
Qed.

(** X14. A joystick message whose left joystick moved but whose [left.x]
    is not a string is logged as joystick data up to the heading of the left
    joystick; the TypeError of [padStart] then makes it a text message, and
    its text is echoed to the sender, when the socket can send to the
    sender's port. *)
Theorem half_logged_frame_is_echoed msg rinfo w data l d :
  let message := Buffer_toString msg in
  valid_port (RemoteInfo.port rinfo) = true ->
  JSON.parse message = Some data ->
  Get data (u "left") = Ok l ->
  Get l (u "distance") = Ok (JString d) ->
  gt (parseFloat d) threshold = true ->
  (exists n, read_distance data (u "right") = Ok n) ->
  (forall x, Get l (u "x") <> Ok (JString x)) ->
  on_message msg rinfo w
  = (Ok tt,
     {| this := this (touched rinfo w);
        ticks := S (S (S (ticks w)));
        trace := trace w
          ++ [ConsoleLog (newline ++ joystick ++ u "  JOYSTICK DATA ["
                          ++ toLocaleTimeString (clock (S (ticks w)))
                          ++ u "]");
              ConsoleLog (round_pushpin ++ u " From: " ++ address_port rinfo);
              ConsoleLog (repeat box_line 50);
              ConsoleLog (blue_circle ++ u " LEFT JOYSTICK (Movement):")]
          ++ text_effects message rinfo
               (toLocaleTimeString (clock (S (S (ticks w))))) |}).
Proof.
  intros message V P GL GD Mv (n & RD) NX.
  rewrite on_message_touched. unfold try_catch, bind at 1, JSON_parse.
  fold message. rewrite P. unfold ret.
  assert (H : handleJoystickData data rinfo (touched rinfo w)
              = (Throw ETypeError,
                 {| this := this (touched rinfo w);
                    ticks := S (S (ticks w));
                    trace := trace w
                      ++ [ConsoleLog (newline ++ joystick ++ u "  JOYSTICK DATA ["
                                      ++ toLocaleTimeString (clock (S (ticks w)))
                                      ++ u "]");
                          ConsoleLog (round_pushpin ++ u " From: "
                                      ++ address_port rinfo);
                          ConsoleLog (repeat box_line 50);
                          ConsoleLog (blue_circle
                                      ++ u " LEFT JOYSTICK (Movement):")] |})).
  { unfold handleJoystickData, log_joystick.
    change (axis <- Get data (u "right") ;; v <- Get axis (u "distance") ;;
            parseFloat_value v)%result with (read_distance data (u "right")).
    rewrite RD, GL. unfold result_bind at 1 2. rewrite GD.
    unfold parseFloat_value, ToString. run_statement. rewrite Mv. cbn [orb].
    run_statement. unfold result_bind. 
    destruct (Get l (u "x")) as [[]|e] eqn:GX;
      try (exfalso; now apply (NX s));
      try (apply Get_throws in GX; subst e);
      cbn [call_padStart]; run_statement;
      repeat rewrite <- app_assoc; reflexivity. }
  rewrite H. rewrite (handleTextMessage_sent _ _ _ V). cbn [this ticks trace].
  rewrite <- app_assoc. reflexivity.
Qed.

(** X15. A joystick message in which a joystick moved, from a sender whose
    port the socket refuses, is handled twice.  [handleJoystickData] logs
    it and throws the RangeError of the socket when it sends the
    acknowledgment; the inner [catch] takes that for a parse failure and
    logs the message again as a text message, whose echo the socket refuses
    as well; the outer [catch] writes this second error to [console.error].
    Nothing is sent, the clock is read four times and the listener returns
    normally. *)
Theorem refused_acknowledgment_becomes_text msg rinfo w data f :
  JSON.parse (Buffer_toString msg) = Some data ->
  as_JoystickData data = Some f ->
  moved (JoystickData.left f) = true \/ moved (JoystickData.right f) = true ->
  valid_port (RemoteInfo.port rinfo) = false ->
  let w' := snd (on_message msg rinfo w) in
  fst (handleJoystickData data rinfo (touched rinfo w)) = Throw ERangeError /\
  fst (on_message msg rinfo w) = Ok tt /\
  trace w'
  = trace w
    ++ joystick_lines f rinfo (toLocaleTimeString (clock (S (ticks w))))
    ++ text_lines (Buffer_toString msg) rinfo
         (toLocaleTimeString (clock (S (S (S (ticks w))))))
    ++ [ConsoleError (u "Error processing message: RangeError")] /\
  sends (trace w') = sends (trace w) /\
  errors (trace w')
  = errors (trace w) ++ [u "Error processing message: RangeError"] /\
  ticks w' = S (S (S (S (ticks w)))).
Proof.
  intros P F Mv V w'. subst w'.
  assert (Mv' : moved (JoystickData.left f) || moved (JoystickData.right f)
                = true)
    by (destruct Mv as [-> | ->]; now rewrite ?orb_true_r).
  rewrite (handleJoystickData_refused data f rinfo _ F Mv' V).
  rewrite (on_message_shaped_refused msg rinfo w data f P F Mv' V).
  cbn [fst snd trace ticks].
  split; [reflexivity|]. split; [reflexivity|]. split; [reflexivity|].
  rewrite !sends_app, !errors_app, sends_joystick_lines, errors_joystick_lines.
  cbn [app sends errors refused_line text_lines]. rewrite app_nil_r.
  repeat split.
Qed.
End MoreFacts.

(* ================================================================== *)
(** * Further instances on the sample runtime *)
(* ================================================================== *)

(** The sample registry has no duplicate key. *)
Lemma registry_ok_two_peers : registry_ok two_peers.
Proof.
  unfold registry_ok. cbn.
  constructor; [intros [H|[]]; discriminate H|].
  constructor; [intros []|constructor].
Qed.

(** The sample clock never steps back. *)
Lemma sample_clock_monotone i j :
  (i <= j)%nat -> clock (Runtime := sample_runtime) i <= clock (Runtime := sample_runtime) j.
Proof.
  intros L.
  change (1700000000000 + 250 * Z.of_nat i <= 1700000000000 + 250 * Z.of_nat j).
  lia.
Qed.

(** X1 on two peers, one of them silent for seventy seconds. *)
Lemma sweep_is_filter_witness :
  let w' := snd (cleanupClients (rt := sample_runtime) two_peers) in
  clients (this w') = [(u "10.0.0.2:4000", 1699999990000)] /\
  trace w' = [disconnect_line (u "10.0.0.1:4000", 1699999930000)] /\
  ticks w' = 1%nat.
Proof.
  destruct (sweep_is_filter (rt := sample_runtime) two_peers
              registry_ok_two_peers) as (_ & C & T & _ & K & _).
  split; [rewrite C; vm_compute; reflexivity|].
  split; [rewrite T; vm_compute; reflexivity | exact K].
Defined.

(** X2 on the same registry. *)
Lemma sweeps_compose_witness :
  clients (this (snd (run (rt := sample_runtime) [CleanupTimer; CleanupTimer]
                        two_peers)))
  = [(u "10.0.0.2:4000", 1699999990000)].
Proof.
  destruct (sweeps_compose (rt := sample_runtime) two_peers
              registry_ok_two_peers) as (_ & C & _).
  rewrite C; vm_compute; [reflexivity | discriminate].
Defined.

(** X3 on a new server. *)
Lemma sweep_without_effect_witness :
  let w := UDPServer_new 8080 in
  clients (this (snd (cleanupClients (rt := sample_runtime) w))) = [] /\
  trace (snd (cleanupClients (rt := sample_runtime) w)) = [].
Proof.
  destruct (sweep_without_effect (rt := sample_runtime) (UDPServer_new 8080)
              (registry_ok_new 8080)) as (_ & _ & E).
  exact (E eq_refl).
Defined.

(** X5 after a datagram and a statistics report. *)
Lemma last_seen_never_in_future_witness :
  let history := [Message (u "hello") sample_sender; StatsTimer] in
  let w := snd (run (rt := sample_runtime) history (UDPServer_new 8080)) in
  1700000000000 <= clock (Runtime := sample_runtime) (ticks w) /\
  0 <= (clock (Runtime := sample_runtime) (ticks w) - 1700000000000) / 1000.
Proof.
  intros history w.
  apply (last_seen_never_in_future (rt := sample_runtime) history 8080
           sample_clock_monotone (u "192.168.1.20:50123") 1700000000000
           (ticks w)).
  - vm_compute. now left.
  - apply le_n.
Defined.

(** X9 on scenario 2 and the same message with its properties in another
    order and one more property. *)
Lemma same_fields_same_handling_witness :
  handleJoystickData (rt := sample_runtime) (value_of moving_left)
    sample_sender (UDPServer_new 8080)
  = handleJoystickData (rt := sample_runtime) (value_of reordered)
      sample_sender (UDPServer_new 8080).
Proof.
  apply (same_fields_same_handling (rt := sample_runtime) _ _ moving_left_frame);
    vm_compute; reflexivity.
Defined.

(** X11 on distances [-0.5] and [-0]. *)
Lemma negative_distances_ignored_witness :
  on_message (rt := sample_runtime) pulled_back sample_sender (UDPServer_new 8080)
  = (Ok tt,
     {| this := {| port := 8080;
                   clients := [(u "192.168.1.20:50123", 1700000000000)] |};
        ticks := 2;
        trace := [] |}).
Proof.
  apply (negative_distances_ignored (rt := sample_runtime) pulled_back
           sample_sender (UDPServer_new 8080) (value_of pulled_back)
           pulled_back_frame (u "0.5") (u "0"));
    vm_compute; reflexivity.
Defined.

(** X13 on the port 3000. *)
Lemma PORT_of_digits_witness :
  PORT (Some (u "3000")) = of_decimal false (u "3000") 0.
Proof.
  apply (PORT_of_digits 51 (u "000")). repeat constructor.
Defined.

(** X14 on a left joystick that has a distance only. *)
Lemma half_logged_frame_is_echoed_witness :
  let w' := snd (on_message (rt := sample_runtime) distance_only sample_sender
                   (UDPServer_new 8080)) in
  length (trace w') = 9%nat /\
  sends (trace w')
  = [(echo distance_only (u "1700000000500"), 50123, u "192.168.1.20")].
Proof.
  intros w'. subst w'.
  rewrite (half_logged_frame_is_echoed (rt := sample_runtime) distance_only
             sample_sender (UDPServer_new 8080) (value_of distance_only)
             (JObject [(u "distance", JString (u "0.5"))]) (u "0.5")).
  - split; vm_compute; reflexivity.
  - vm_compute. reflexivity.
  - vm_compute. reflexivity.
  - vm_compute. reflexivity.
  - vm_compute. reflexivity.
  - vm_compute. reflexivity.
  - eexists. vm_compute. reflexivity.
  - intros x. vm_compute. discriminate.
Defined.

(** X15 on scenario 2 sent from source port 0. *)
Lemma refused_acknowledgment_becomes_text_witness :
  let w' := snd (on_message (rt := sample_runtime) moving_left
                   unreachable_sender (UDPServer_new 8080)) in
  length (trace w') = 11%nat /\
  sends (trace w') = [] /\
  errors (trace w') = [u "Error processing message: RangeError"] /\
  ticks w' = 4%nat.
Proof.
  intros w'.
  destruct (refused_acknowledgment_becomes_text (rt := sample_runtime)
              moving_left unreachable_sender (UDPServer_new 8080)
              (value_of moving_left) moving_left_frame)
    as (_ & _ & T & S & E & K).
  - vm_compute. reflexivity.
  - vm_compute. reflexivity.
  - left. vm_compute. reflexivity.
  - vm_compute. reflexivity.
  - fold w' in T, S, E, K.
    split; [rewrite T; vm_compute; reflexivity|].
    split; [exact S|]. split; [exact E | exact K].
Defined.
